(** * Undo recording and truncation (src/undo.c)

    A shallow embedding of the undo journal of [undo.c]: the recorder
    ([record_point], [record_insert], [record_marker_adjustments],
    [record_delete], [record_first_change]), the size report
    ([Fundo_size]) and the collector's [truncate_undo_list], followed by
    the properties of the journal that the design document states.

    Lisp objects are trees.  The undo list is a chain of cons cells, and
    the C code keeps pointers ([prev], [last_boundary]) to cells of that
    chain; here such a pointer is the index of the cell along the chain,
    and [XSETCDR] through it rebuilds the chain with that cell's cdr
    replaced.  Chains that are cyclic, or that share cells with their own
    elements, are outside this model. *)

From Stdlib Require Import ZArith List Bool String Lia.
Import ListNotations.
Local Open Scope Z_scope.

(** ** Lisp objects (lisp.h) *)

(** [struct Lisp_String]: [size] is the number of characters (what
    [SCHARS] reads), [size_byte] the number of bytes, or a negative value
    for a unibyte string. *)
Record Lisp_String : Type := mkString {
  size : Z;
  size_byte : Z;
  data : string
}.

Inductive Lisp_Object : Type :=
| Qnil : Lisp_Object
| Qt : Lisp_Object
| LSymbol : string -> Lisp_Object      (* a symbol other than nil and t *)
| LInt : Z -> Lisp_Object              (* a fixnum, by the value XINT reads *)
| LStr : Lisp_String -> Lisp_Object
| LMarker : nat -> Lisp_Object         (* XSETMISC of a marker, by address *)
| LCons : Lisp_Object -> Lisp_Object -> Lisp_Object.

Definition NILP (x : Lisp_Object) : bool :=
  match x with Qnil => true | _ => false end.

Definition CONSP (x : Lisp_Object) : bool :=
  match x with LCons _ _ => true | _ => false end.

Definition INTEGERP (x : Lisp_Object) : bool :=
  match x with LInt _ => true | _ => false end.

Definition STRINGP (x : Lisp_Object) : bool :=
  match x with LStr _ => true | _ => false end.

(** [EQ (x, Qt)]. *)
Definition EQ_Qt (x : Lisp_Object) : bool :=
  match x with Qt => true | _ => false end.

Definition Fcons (car cdr : Lisp_Object) : Lisp_Object := LCons car cdr.

(** [XCAR] and [XCDR] are only applied under a [CONSP] test; on other
    objects the model answers nil, which is also what [Fcar] does on nil. *)
Definition XCAR (x : Lisp_Object) : Lisp_Object :=
  match x with LCons a _ => a | _ => Qnil end.

Definition XCDR (x : Lisp_Object) : Lisp_Object :=
  match x with LCons _ d => d | _ => Qnil end.

Definition XINT (x : Lisp_Object) : Z :=
  match x with LInt n => n | _ => 0 end.

Definition SCHARS (x : Lisp_Object) : Z :=
  match x with LStr s => size s | _ => 0 end.

(** A Lisp list written from a Rocq list of elements and a tail. *)
Fixpoint lisp_list (elts : list Lisp_Object) (tail : Lisp_Object) : Lisp_Object :=
  match elts with
  | [] => tail
  | e :: rest => LCons e (lisp_list rest tail)
  end.

(** The elements met along the chain of cdrs, up to the first non-cons. *)
Fixpoint lisp_elements (l : Lisp_Object) : list Lisp_Object :=
  match l with
  | LCons e rest => e :: lisp_elements rest
  | _ => []
  end.

(** A pointer to a cell of the list under scan: [None] is [Qnil],
    [Some i] is the i-th cons cell of the chain, counted from 0. *)
Definition cell : Type := option nat.

(** [XSETCDR (c, v)] where [c] is the i-th cell of the chain [l]. *)
Fixpoint XSETCDR_at (i : nat) (l : Lisp_Object) (v : Lisp_Object) {struct l}
  : Lisp_Object :=
  match l with
  | LCons a d =>
      match i with
      | O => LCons a v
      | S j => LCons a (XSETCDR_at j d v)
      end
  | _ => l
  end.

(** ** Buffers and the globals of undo.c *)

Definition buffer_ptr : Type := nat.

(** [struct Lisp_Marker], with the fields the recorder reads; the chain
    link [next] is the order of the list [markers] below. *)
Record Lisp_Marker : Type := mkMarker {
  marker_addr : nat;
  charpos : Z;
  insertion_type : bool
}.

(** [struct buffer], with the fields undo.c reads or writes. *)
Record buffer : Type := mkBuffer {
  undo_list : Lisp_Object;          (* BVAR (b, undo_list); Qt = no undo *)
  base_buffer : option buffer_ptr;  (* b->base_buffer; None = NULL *)
  markers : list Lisp_Marker;       (* BUF_MARKERS (b) *)
  pt : Z;                           (* PT *)
  modiff : Z;                       (* MODIFF *)
  save_modiff : Z;                  (* SAVE_MODIFF *)
  modtime : Lisp_Object;            (* visited file modification time *)
  undoably_changed : Lisp_Object    (* local undo-buffer-undoably-changed *)
}.

(** What a call of [undo-outer-limit-function] leaves behind.  A handler
    that answers non-nil has taken charge of the list, and [Handled l]
    carries the list it left in the buffer; a handler that answers nil is
    taken to have left the list as it found it. *)
Inductive handler_result : Type :=
| Handled : Lisp_Object -> handler_result
| NotHandled : handler_result.

Record state : Type := mkState {
  bufs : buffer_ptr -> buffer;
  current_buffer : buffer_ptr;
  last_boundary_buffer : option buffer_ptr;
  last_boundary_position : Z;
  pending_boundary : Lisp_Object;
  undo_inhibit_record_point : bool;
  undo_limit : Z;
  undo_strong_limit : Z;
  Vundo_outer_limit : Lisp_Object;
  (* None is Qnil; the argument is the size, as a fixnum. *)
  Vundo_outer_limit_function : option (Lisp_Object -> handler_result);
  (* Buffers for which undo-first-undoable-change-hook has been run,
     latest first. *)
  first_change_hook_runs : list buffer_ptr
}.

(** What lisp.h and fileio.c supply and these sources do not define: the
    sizes of a cons cell and of a string header, the width of a fixnum,
    and [Fvisited_file_modtime], which takes no argument and answers from
    the global state. *)
Class Externals : Type := {
  sizeof_Lisp_Cons : Z;
  sizeof_Lisp_String : Z;
  FIXNUM_BITS : Z;
  Fvisited_file_modtime : state -> Lisp_Object
}.

(** The usual 64-bit build: 16-byte cons cells, 32-byte string headers,
    62-bit fixnums, and the modification time of the current buffer. *)
Definition lp64 : Externals := {|
  sizeof_Lisp_Cons := 16;
  sizeof_Lisp_String := 32;
  FIXNUM_BITS := 62;
  Fvisited_file_modtime := fun st => modtime (bufs st (current_buffer st))
|}.

(** Outcome of a primitive that may signal. *)
Inductive signal : Type :=
| wrong_type_argument : Lisp_Object -> Lisp_Object -> signal.

Inductive result (A : Type) : Type :=
| Ok : A -> result A
| Signal : signal -> result A.
Arguments Ok {A} _.
Arguments Signal {A} _.

Definition Qintegerp : Lisp_Object := LSymbol "integerp".

(** [CHECK_NUMBER (x)], of lisp.h, is [CHECK_TYPE (INTEGERP (x), Qintegerp,
    x)]: it signals wrong-type-argument unless [x] is an integer, of
    either sign. *)
Definition CHECK_NUMBER (x : Lisp_Object) : result unit :=
  if INTEGERP x then Ok tt else Signal (wrong_type_argument Qintegerp x).

(** *** State accessors *)

Definition BVAR_undo_list (st : state) (b : buffer_ptr) : Lisp_Object :=
  undo_list (bufs st b).

Definition with_undo_list (b : buffer) (v : Lisp_Object) : buffer :=
  mkBuffer v (base_buffer b) (markers b) (pt b) (modiff b) (save_modiff b)
           (modtime b) (undoably_changed b).

Definition with_undoably_changed (b : buffer) (v : Lisp_Object) : buffer :=
  mkBuffer (undo_list b) (base_buffer b) (markers b) (pt b) (modiff b)
           (save_modiff b) (modtime b) v.

Definition with_bufs (st : state) (f : buffer_ptr -> buffer) : state :=
  mkState f (current_buffer st) (last_boundary_buffer st)
          (last_boundary_position st) (pending_boundary st)
          (undo_inhibit_record_point st) (undo_limit st)
          (undo_strong_limit st) (Vundo_outer_limit st)
          (Vundo_outer_limit_function st) (first_change_hook_runs st).

Definition update_buffer (st : state) (p : buffer_ptr) (b : buffer) : state :=
  with_bufs st (fun q => if Nat.eqb q p then b else bufs st q).

(** [bset_undo_list (b, v)]. *)
Definition bset_undo_list (st : state) (b : buffer_ptr) (v : Lisp_Object) : state :=
  update_buffer st b (with_undo_list (bufs st b) v).

Definition set_pending_boundary (st : state) (v : Lisp_Object) : state :=
  mkState (bufs st) (current_buffer st) (last_boundary_buffer st)
          (last_boundary_position st) v
          (undo_inhibit_record_point st) (undo_limit st)
          (undo_strong_limit st) (Vundo_outer_limit st)
          (Vundo_outer_limit_function st) (first_change_hook_runs st).

(** [safe_run_hooks (Qundo_first_undoable_change_hook)]: the hook
    functions belong to the caller; the model records that the hook ran,
    and for which buffer. *)
Definition safe_run_first_change_hook (st : state) : state :=
  mkState (bufs st) (current_buffer st) (last_boundary_buffer st)
          (last_boundary_position st) (pending_boundary st)
          (undo_inhibit_record_point st) (undo_limit st)
          (undo_strong_limit st) (Vundo_outer_limit st)
          (Vundo_outer_limit_function st)
          (current_buffer st :: first_change_hook_runs st).

(** ** The recorder *)

Section Journal.
Context {ext : Externals}.

(** [make_number (n)] keeps the low [FIXNUM_BITS] bits of [n], read back
    signed by [XINT]; [XSETINT] and [XSETFASTINT] store through it. *)
Definition make_number (n : Z) : Lisp_Object :=
  LInt ((n + 2 ^ (FIXNUM_BITS - 1)) mod 2 ^ FIXNUM_BITS - 2 ^ (FIXNUM_BITS - 1)).

(** Lines 54-61, 129-137 and 247-254: reserve the cons cell of the coming
    boundary, and announce the first undoable change of the buffer. *)
Definition reserve_pending_boundary (st : state) : state :=
  if NILP (pending_boundary st)
  then set_pending_boundary st (Fcons Qnil Qnil)
  else st.

Definition announce_undoable_change (st : state) : state :=
  let cur := current_buffer st in
  if NILP (undoably_changed (bufs st cur))
  then safe_run_first_change_hook
         (update_buffer st cur (with_undoably_changed (bufs st cur) Qt))
  else st.

Definition record_first_change (st : state) : state :=
  let base_buffer_0 := current_buffer st in
  if EQ_Qt (BVAR_undo_list st (current_buffer st)) then st
  else
    (* The local base_buffer is resolved and then not read again. *)
    let base_buffer_1 :=
      match base_buffer (bufs st base_buffer_0) with
      | Some root => root
      | None => base_buffer_0
      end in
    bset_undo_list st (current_buffer st)
      (Fcons (Fcons Qt (Fvisited_file_modtime st))
             (BVAR_undo_list st (current_buffer st))).

Definition same_buffer (p : buffer_ptr) (q : option buffer_ptr) : bool :=
  match q with
  | Some r => Nat.eqb p r
  | None => false
  end.

Definition record_point (pt_arg : Z) (st : state) : state :=
  if undo_inhibit_record_point st then st
  else
    let st := reserve_pending_boundary st in
    let st := announce_undoable_change st in
    let cur := current_buffer st in
    let at_boundary :=
      negb (CONSP (BVAR_undo_list st cur))
      || NILP (XCAR (BVAR_undo_list st cur)) in
    let st :=
      if modiff (bufs st cur) <=? save_modiff (bufs st cur)
      then record_first_change st
      else st in
    if at_boundary
       && same_buffer cur (last_boundary_buffer st)
       && negb (last_boundary_position st =? pt_arg)
    then bset_undo_list st cur
           (Fcons (make_number (last_boundary_position st))
                  (BVAR_undo_list st cur))
    else st.

Definition record_insert (beg length : Z) (st : state) : state :=
  if EQ_Qt (BVAR_undo_list st (current_buffer st)) then st
  else
    let st := record_point beg st in
    let cur := current_buffer st in
    let push :=
      bset_undo_list st cur
        (Fcons (Fcons (make_number beg) (make_number (beg + length)))
               (BVAR_undo_list st cur)) in
    match BVAR_undo_list st cur with
    | LCons elt rest =>
        if CONSP elt && INTEGERP (XCAR elt) && INTEGERP (XCDR elt)
           && (XINT (XCDR elt) =? beg)
        then (* XSETCDR (elt, make_number (beg + length)) *)
          bset_undo_list st cur
            (LCons (LCons (XCAR elt) (make_number (beg + length))) rest)
        else push
    | _ => push
    end.

(** ** Marker correction *)

(** The body of the loop over the marker chain, lines 141-163.  The
    [eassert] of line 142 is a debugging check without effect. *)
Definition record_marker_adjustment (from to : Z) (st : state) (m : Lisp_Marker)
  : state :=
  let charpos := charpos m in
  if (from <=? charpos) && (charpos <=? to)
  then
    let adjustment := (if insertion_type m then to else from) - charpos in
    if negb (adjustment =? 0)
    then
      bset_undo_list st (current_buffer st)
        (Fcons (Fcons (LMarker (marker_addr m)) (make_number adjustment))
               (BVAR_undo_list st (current_buffer st)))
    else st
  else st.

Definition record_marker_adjustments (from to : Z) (st : state) : state :=
  let st := reserve_pending_boundary st in
  let st := announce_undoable_change st in
  fold_left (record_marker_adjustment from to)
            (markers (bufs st (current_buffer st))) st.

Definition record_delete (beg : Z) (str : Lisp_Object) (record_markers : bool)
                         (st : state) : state :=
  if EQ_Qt (BVAR_undo_list st (current_buffer st)) then st
  else
    let PT := pt (bufs st (current_buffer st)) in
    let '(sbeg, st) :=
      if PT =? beg + SCHARS str
      then (make_number (- beg), record_point PT st)
      else (make_number beg, record_point beg st) in
    let st :=
      if record_markers
      then record_marker_adjustments beg (beg + SCHARS str) st
      else st in
    bset_undo_list st (current_buffer st)
      (Fcons (Fcons str sbeg) (BVAR_undo_list st (current_buffer st))).

(** ** Size report: [Fundo_size] *)

(** Lines 341-343, 409-411 and 465-467: the charge for the text of a
    deletion record. *)
Definition string_size (elt : Lisp_Object) : Z :=
  if STRINGP (XCAR elt)
  then sizeof_Lisp_String - 1 + SCHARS (XCAR elt)
  else 0.

(** The locals [size_so_far], [boundary_so_far] and [num] of [Fundo_size]
    are declared without an initial value (line 316); these are the
    values they hold when the function starts. *)
Record undo_size_locals : Type := mkLocals {
  initial_size_so_far : Z;
  initial_boundary_so_far : Z;
  initial_num : Z
}.

(** The design document directs that they be taken as zero. *)
Definition zeroed : undo_size_locals := mkLocals 0 0 0.

(** The loop of lines 325-349; the answer is [size_so_far] at its exit. *)
Fixpoint undo_size_loop (next : Lisp_Object)
                        (size_so_far boundary_so_far num : Z) : Z :=
  match next with
  | LCons elt rest =>
      let size_so_far := size_so_far + sizeof_Lisp_Cons in
      if CONSP elt
      then
        if NILP (XCAR elt)
        then
          let boundary_so_far := boundary_so_far + 1 in
          if boundary_so_far >=? num
          then size_so_far (* break *)
          else undo_size_loop rest (size_so_far + string_size elt)
                              boundary_so_far num
        else undo_size_loop rest (size_so_far + string_size elt)
                            boundary_so_far num
      else undo_size_loop rest size_so_far boundary_so_far num
  | _ => size_so_far
  end.

(** [if (n)] holds for every object but nil, whose representation is
    zero. *)
Definition Fundo_size_from (junk : undo_size_locals) (n : Lisp_Object)
                           (st : state) : result Lisp_Object :=
  if EQ_Qt (BVAR_undo_list st (current_buffer st)) then Ok Qnil
  else
    let checked :=
      if negb (NILP n)
      then match CHECK_NUMBER n with
           | Ok _ => Ok (XINT n)
           | Signal s => Signal s
           end
      else Ok (initial_num junk) in
    match checked with
    | Signal s => Signal s
    | Ok num =>
        Ok (make_number
              (undo_size_loop (BVAR_undo_list st (current_buffer st))
                              (initial_size_so_far junk)
                              (initial_boundary_so_far junk) num))
    end.

Definition Fundo_size : Lisp_Object -> state -> result Lisp_Object :=
  Fundo_size_from zeroed.

(** ** Retention: [truncate_undo_list] *)

(** Lines 404-412 and 460-468: the space of an element and its chain
    link. *)
Definition element_size (elt : Lisp_Object) : Z :=
  sizeof_Lisp_Cons
  + (if CONSP elt then sizeof_Lisp_Cons + string_size elt else 0).

(** The locals of the scan.  [pos] is the index of [next] along the
    chain; the C code does not hold it, it is what lets [prev] and
    [last_boundary] be indices. *)
Record scan : Type := mkScan {
  prev : cell;
  next : Lisp_Object;
  pos : nat;
  size_so_far : Z;
  last_boundary : cell
}.

(** Lines 376-391. *)
Definition skip_leading_boundary (list : Lisp_Object) : scan :=
  match list with
  | LCons elt rest =>
      if NILP elt
      then mkScan (Some O) rest 1 (0 + sizeof_Lisp_Cons) None
      else mkScan None list 0 0 None
  | _ => mkScan None list 0 0 None
  end.

(** Lines 399-417: up to the first boundary. *)
Fixpoint skip_to_boundary (next : Lisp_Object) (prev : cell) (pos : nat)
                          (size_so_far : Z) : scan :=
  match next with
  | LCons elt rest =>
      if negb (NILP elt)
      then skip_to_boundary rest (Some pos) (S pos)
                            (size_so_far + element_size elt)
      else mkScan prev next pos size_so_far None
  | _ => mkScan prev next pos size_so_far None
  end.

Definition scan_first_command (list : Lisp_Object) : scan :=
  let s := skip_leading_boundary list in
  skip_to_boundary (next s) (prev s) (pos s) (size_so_far s).

(** Lines 421-436: [Some h] when the handler [h] is to be called. *)
Definition outer_limit_handler (st : state) (size_so_far : Z)
  : option (Lisp_Object -> handler_result) :=
  if INTEGERP (Vundo_outer_limit st)
     && (size_so_far >? XINT (Vundo_outer_limit st))
  then Vundo_outer_limit_function st
  else None.

(** Lines 442-473. *)
Fixpoint keep_additional (limit strong_limit : Z)
                         (next : Lisp_Object) (prev : cell) (pos : nat)
                         (size_so_far : Z) (last_boundary : cell) : scan :=
  match next with
  | LCons elt rest =>
      if NILP elt
      then
        if size_so_far >? strong_limit
        then mkScan prev next pos size_so_far last_boundary (* break *)
        else
          let last_boundary := prev in
          if size_so_far >? limit
          then mkScan prev next pos size_so_far last_boundary (* break *)
          else keep_additional limit strong_limit rest (Some pos) (S pos)
                               (size_so_far + element_size elt) last_boundary
      else keep_additional limit strong_limit rest (Some pos) (S pos)
                           (size_so_far + element_size elt) last_boundary
  | _ => mkScan prev next pos size_so_far last_boundary
  end.

(** Lines 438-439: the locals on entry to that loop. *)
Definition additional_entry (s : scan) : scan :=
  mkScan (prev s) (next s) (pos s) (size_so_far s)
         (if CONSP (next s) then prev s else None).

(** Lines 438-473, entered with the locals [s]. *)
Definition scan_additional (limit strong_limit : Z) (s : scan) : scan :=
  let e := additional_entry s in
  keep_additional limit strong_limit (next e) (prev e) (pos e)
                  (size_so_far e) (last_boundary e).

(** The loop of lines 442-473 as steps: the states in which the loop
    tests its condition while [list] is truncated, that is the entry
    state and the state after each iteration that runs to its end (the
    element is a record, or it is a boundary met within both limits). *)
Inductive scanned (limit strong_limit : Z) (list : Lisp_Object)
  : scan -> Prop :=
| scanned_entry :
    scanned limit strong_limit list
            (additional_entry (scan_first_command list))
| scanned_next : forall (s : scan) (elt rest : Lisp_Object),
    scanned limit strong_limit list s ->
    next s = LCons elt rest ->
    NILP elt = false
    \/ (size_so_far s <= strong_limit /\ size_so_far s <= limit) ->
    scanned limit strong_limit list
            (mkScan (Some (pos s)) rest (S (pos s))
                    (size_so_far s + element_size elt)
                    (if NILP elt then prev s else last_boundary s)).

(** The branch taken at the end of [truncate_undo_list]. *)
Inductive truncation : Type :=
| Overflow_handled : Lisp_Object -> truncation  (* return of line 434 *)
| Unchanged : truncation                        (* line 477 *)
| Cut_after : nat -> truncation                 (* line 480 *)
| Cleared : truncation.                         (* line 483 *)

(** Lines 475-483. *)
Definition finish (s : scan) : truncation :=
  if NILP (next s) then Unchanged
  else match last_boundary s with
       | Some i => Cut_after i
       | None => Cleared
       end.

Definition truncate_decision (st : state) (b : buffer_ptr) : truncation :=
  let list := BVAR_undo_list st b in
  let s := scan_first_command list in
  let continue :=
    finish (scan_additional (undo_limit st) (undo_strong_limit st) s) in
  match outer_limit_handler st (size_so_far s) with
  | Some handler =>
      match handler (make_number (size_so_far s)) with
      | Handled l => Overflow_handled l
      | NotHandled => continue
      end
  | None => continue
  end.

(** The list that a branch leaves in the buffer. *)
Definition truncated (list : Lisp_Object) (t : truncation) : Lisp_Object :=
  match t with
  | Overflow_handled l => l
  | Unchanged => list
  | Cut_after i => XSETCDR_at i list Qnil
  | Cleared => Qnil
  end.

(** [truncate_undo_list (b)].  The buffer is made current for the scan
    and the former current buffer is restored by [unbind_to], so of the
    state only the list of [b] changes; [undo_limit] and
    [undo_strong_limit] are the values in force while [b] is current.
    Garbage collection is inhibited throughout, which has no counterpart
    here. *)
Definition truncate_undo_list (b : buffer_ptr) (st : state) : state :=
  match truncate_decision st b with
  | Unchanged => st
  | t => bset_undo_list st b (truncated (BVAR_undo_list st b) t)
  end.

End Journal.

(** ** Reference notions used by the statements *)

Section Reference.
Context {ext : Externals}.

(** The state [syms_of_undo] sets up (lines 499-559), every buffer being
    [b] and buffer 0 current. *)
Definition syms_of_undo (b : buffer) : state :=
  mkState (fun _ => b) O None 0 Qnil false 80000 120000
          (make_number 12000000) None [].

(** A buffer that has been modified since it was saved, holding the undo
    list [l], with point at 1 and no marker. *)
Definition modified_buffer (l : Lisp_Object) : buffer :=
  mkBuffer l None [] 1 1 0 Qnil Qt.

(** The records of one command: the elements up to the first boundary. *)
Fixpoint command_records (l : Lisp_Object) : list Lisp_Object :=
  match l with
  | LCons elt rest => if NILP elt then [] else elt :: command_records rest
  | _ => []
  end.

(** The records of the most recent command: those between the head, past
    a leading boundary if there is one, and the first boundary after
    them. *)
Definition most_recent_command (l : Lisp_Object) : list Lisp_Object :=
  match l with
  | LCons elt rest => if NILP elt then command_records rest else command_records l
  | _ => []
  end.

(** The head of the list is an insertion record [(BEG . END)] with [END]
    equal to [beg]. *)
Definition insertion_ending_at (beg : Z) (l : Lisp_Object) : bool :=
  match l with
  | LCons (LCons (LInt _) (LInt e)) _ => e =? beg
  | _ => false
  end.

(** Marker correction: the delta of a marker, and the record made of it. *)
Definition marker_delta (from to : Z) (m : Lisp_Marker) : Z :=
  (if insertion_type m then to else from) - charpos m.

Definition adjustment_record (from to : Z) (m : Lisp_Marker) : Lisp_Object :=
  Fcons (LMarker (marker_addr m)) (make_number (marker_delta from to m)).

(** A marker inside the closed range [from, to] whose delta is not zero. *)
Definition needs_adjustment (from to : Z) (m : Lisp_Marker) : bool :=
  (from <=? charpos m) && (charpos m <=? to)
  && negb (marker_delta from to m =? 0).

(** Pushing records one after the other: the last one ends at the head. *)
Definition push_all (records : list Lisp_Object) (l : Lisp_Object) : Lisp_Object :=
  fold_left (fun acc r => Fcons r acc) records l.

(** What the operations of the recorder leave alone. *)
Definition frame (st st' : state) : Prop :=
  current_buffer st' = current_buffer st
  /\ undo_inhibit_record_point st' = undo_inhibit_record_point st
  /\ last_boundary_buffer st' = last_boundary_buffer st
  /\ last_boundary_position st' = last_boundary_position st
  /\ forall b,
       markers (bufs st' b) = markers (bufs st b)
       /\ pt (bufs st' b) = pt (bufs st b)
       /\ modiff (bufs st' b) = modiff (bufs st b)
       /\ save_modiff (bufs st' b) = save_modiff (bufs st b)
       /\ base_buffer (bufs st' b) = base_buffer (bufs st b).

(** A state like [st] with other limits and another overflow handler. *)
Definition with_limits (st : state) (limit strong_limit : Z)
                       (outer_limit : Lisp_Object)
                       (handler : option (Lisp_Object -> handler_result))
  : state :=
  mkState (bufs st) (current_buffer st) (last_boundary_buffer st)
          (last_boundary_position st) (pending_boundary st)
          (undo_inhibit_record_point st) limit strong_limit outer_limit
          handler (first_change_hook_runs st).

(** A buffer that has not been modified since it was saved. *)
Definition saved_buffer (l : Lisp_Object) : buffer :=
  mkBuffer l None [] 1 1 1 (LInt 1700000000) Qt.

(** Buffer 0 visits a file and holds the list [l0]; buffer 1 is an
    indirect buffer over it, holds [l1], visits no file and is current. *)
Definition indirect_session (l0 l1 : Lisp_Object) : state :=
  mkState (fun b => if Nat.eqb b 1
                    then mkBuffer l1 (Some O) [] 1 1 0 (LInt 0) Qt
                    else mkBuffer l0 None [] 1 1 0 (LInt 1700000000) Qt)
          1%nat None 0 Qnil false 80000 120000 (LInt 12000000) None [].

(** The i-th cdr of a list. *)
Fixpoint Fnthcdr (n : nat) (l : Lisp_Object) : Lisp_Object :=
  match n with
  | O => l
  | S m => Fnthcdr m (XCDR l)
  end.

(** An insertion record [(BEG . END)] and a deletion record
    [(TEXT . POSITION)]. *)
Definition insertion (b e : Z) : Lisp_Object := LCons (LInt b) (LInt e).

Definition deletion (text : Lisp_Object) (position : Z) : Lisp_Object :=
  LCons text (LInt position).

(** A text property record [(nil PROP VAL BEG . END)]. *)
Definition property_change (prop val : Lisp_Object) (b e : Z) : Lisp_Object :=
  LCons Qnil (LCons prop (LCons val (LCons (LInt b) (LInt e)))).

(** [prev] is the cell just before [next]. *)
Definition linked (prev : cell) (pos : nat) : Prop :=
  match prev with
  | None => pos = O
  | Some j => pos = S j
  end.

(** A cut through cell [c] keeps at least the first [k] cells. *)
Definition keeps (k : nat) (c : cell) : Prop :=
  match c with
  | None => True
  | Some j => (k <= S j)%nat
  end.

(** The number of cells taken by a leading boundary: 1 or 0. *)
Definition leading_boundary (l : Lisp_Object) : nat :=
  match l with
  | LCons elt _ => if NILP elt then 1 else 0
  | _ => 0
  end.

(** A chain of cons cells that ends in nil. *)
Fixpoint proper_list (l : Lisp_Object) : bool :=
  match l with
  | Qnil => true
  | LCons _ rest => proper_list rest
  | _ => false
  end.

(** Cell [i] of the list [l] holds a boundary; [back] is what follows. *)
Definition boundary_at (i : nat) (l back : Lisp_Object) : Prop :=
  Fnthcdr i l = LCons Qnil back.

End Reference.

(** ** Sample sessions on the 64-bit build *)

(** The state of [syms_of_undo] around a modified buffer holding [l],
    with the given soft and strong limits, no outer limit and no
    overflow handler. *)
Definition session (l : Lisp_Object) (limit strong_limit : Z) : state :=
  with_limits (@syms_of_undo lp64 (modified_buffer l)) limit strong_limit
              Qnil None.

(** The same around a buffer saved after its last change. *)
Definition saved_session (l : Lisp_Object) : state :=
  @syms_of_undo lp64 (saved_buffer l).

(** The same around a buffer with markers, and with point at [point]. *)
Definition marker_session (l : Lisp_Object) (ms : list Lisp_Marker)
                          (point : Z) : state :=
  @syms_of_undo lp64 (mkBuffer l None ms point 1 0 Qnil Qt).

Definition three_commands : Lisp_Object :=
  lisp_list [Qnil; insertion 1 3; Qnil; insertion 4 6; Qnil; insertion 7 9]
            Qnil.

Definition two_commands : Lisp_Object :=
  lisp_list [insertion 1 3; Qnil; insertion 4 6] Qnil.

Definition sample_markers : list Lisp_Marker :=
  [mkMarker 1 5 false; mkMarker 2 6 false; mkMarker 3 7 true;
   mkMarker 4 8 false; mkMarker 5 8 true; mkMarker 6 9 false].

Definition abc : Lisp_Object := LStr (mkString 3 (-1) "abc").


(** ** The rest of undo.c: boundaries, property changes, replacements *)

Section Boundaries.
Context {ext : Externals}.

Definition Qlistp : Lisp_Object := LSymbol "listp".

(** [Fcar], of data.c: the car of a cons, nil for nil, and
    wrong-type-argument for any other object. *)
Definition Fcar (x : Lisp_Object) : result Lisp_Object :=
  match x with
  | LCons a _ => Ok a
  | Qnil => Ok Qnil
  | _ => Signal (wrong_type_argument Qlistp x)
  end.

Definition set_last_boundary (st : state) (position : Z) (b : buffer_ptr)
  : state :=
  mkState (bufs st) (current_buffer st) (Some b) position
          (pending_boundary st) (undo_inhibit_record_point st)
          (undo_limit st) (undo_strong_limit st) (Vundo_outer_limit st)
          (Vundo_outer_limit_function st) (first_change_hook_runs st).

Definition set_current_buffer (st : state) (b : buffer_ptr) : state :=
  mkState (bufs st) b (last_boundary_buffer st) (last_boundary_position st)
          (pending_boundary st) (undo_inhibit_record_point st)
          (undo_limit st) (undo_strong_limit st) (Vundo_outer_limit st)
          (Vundo_outer_limit_function st) (first_change_hook_runs st).

(** [Fundo_boundary], lines 271-299.  Its value is always nil; the
    result here is the state it leaves, or the signal of [Fcar].  The
    reserved cell is linked in by [XSETCDR (pending_boundary, list)]: the
    new head cell has the car of the reserved cell. *)
Definition Fundo_boundary (st : state) : result state :=
  let cur := current_buffer st in
  if EQ_Qt (BVAR_undo_list st cur) then Ok st
  else
    match Fcar (BVAR_undo_list st cur) with
    | Signal s => Signal s
    | Ok tem =>
        let st :=
          if negb (NILP tem)
          then
            if negb (NILP (pending_boundary st))
            then
              set_pending_boundary
                (bset_undo_list st cur
                   (LCons (XCAR (pending_boundary st))
                          (BVAR_undo_list st cur)))
                Qnil
            else bset_undo_list st cur (Fcons Qnil (BVAR_undo_list st cur))
          else st in
        Ok (set_last_boundary st (pt (bufs st (current_buffer st)))
                              (current_buffer st))
    end.

(** [record_property_change], lines 235-269; [buf] is [XBUFFER (buffer)]. *)
Definition record_property_change (beg length : Z) (prop value : Lisp_Object)
                                  (buf : buffer_ptr) (st : state) : state :=
  let obuf := current_buffer st in
  if EQ_Qt (BVAR_undo_list st buf) then st
  else
    let st := reserve_pending_boundary st in
    let st := announce_undoable_change st in
    let st := set_current_buffer st buf in
    let st :=
      if modiff (bufs st (current_buffer st))
         <=? save_modiff (bufs st (current_buffer st))
      then record_first_change st
      else st in
    let entry :=
      Fcons Qnil
            (Fcons prop
                   (Fcons value
                          (Fcons (make_number beg)
                                 (make_number (beg + length))))) in
    let st :=
      bset_undo_list st (current_buffer st)
        (Fcons entry (BVAR_undo_list st (current_buffer st))) in
    set_current_buffer st obuf.

(** [record_change], lines 205-210.  [make_buffer_string], of editfns.c,
    reads the text of the current buffer between two positions; it is an
    argument here. *)
Definition record_change (make_buffer_string : state -> Z -> Z -> Lisp_Object)
                         (beg length : Z) (st : state) : state :=
  record_insert beg length
    (record_delete beg (make_buffer_string st beg (beg + length)) false st).

(** *** Notions used by the statements below *)

(** The reserved boundary cell is either absent or a cell whose car is
    nil, as [Fcons (Qnil, Qnil)] makes it. *)
Definition pending_boundary_ok (st : state) : Prop :=
  pending_boundary st = Qnil
  \/ exists d, pending_boundary st = LCons Qnil d.

(** The space [truncate_undo_list] counts for a run of elements. *)
Definition elements_size (elts : list Lisp_Object) : Z :=
  fold_right (fun elt acc => element_size elt + acc) 0 elts.

(** No string of a deletion record is charged a negative size. *)
Definition sized_records (l : Lisp_Object) : Prop :=
  Forall (fun elt => 0 <= string_size elt) (lisp_elements l).

(** The first-change record of the state [st]. *)
Definition first_change_record (st : state) : Lisp_Object :=
  Fcons Qt (Fvisited_file_modtime st).

(** What [record_point] may push: a cursor position, a first-change
    record. *)
Definition point_record (r : Lisp_Object) : Prop :=
  (exists x, r = make_number x) \/ (exists s, r = first_change_record s).

(** The buffer-local flag that gates the first-undoable-change hook. *)
Definition undoably_changed_flag (st : state) : Lisp_Object :=
  undoably_changed (bufs st (current_buffer st)).

(** From [st] to [st'] the hook ran at most once, for the current buffer,
    and only if the flag was nil; it left the flag set. *)
Definition announced (st st' : state) : Prop :=
  current_buffer st' = current_buffer st
  /\ ((first_change_hook_runs st' = first_change_hook_runs st
       /\ undoably_changed_flag st' = undoably_changed_flag st)
      \/ (NILP (undoably_changed_flag st) = true
          /\ first_change_hook_runs st'
             = current_buffer st :: first_change_hook_runs st
          /\ undoably_changed_flag st' = Qt)).

(** The reserved cell once a reservation has been made. *)
Definition reserved (st : state) : Lisp_Object :=
  if NILP (pending_boundary st) then Fcons Qnil Qnil else pending_boundary st.

(** The first [k] cells of a chain, closed by nil; a chain with fewer
    cells is returned whole. *)
Fixpoint take_cells (k : nat) (l : Lisp_Object) : Lisp_Object :=
  match k with
  | O => Qnil
  | S k' =>
      match l with
      | LCons a d => LCons a (take_cells k' d)
      | _ => l
      end
  end.

(** The loop of lines 442-473, entered at [next] with [size] bytes
    counted, runs [k] iterations to their end: [next] has [k] cells and
    every boundary among them is met within both limits. *)
Fixpoint passes (limit strong_limit : Z) (k : nat) (next : Lisp_Object)
                (size : Z) : bool :=
  match k with
  | O => true
  | S k' =>
      match next with
      | LCons elt rest =>
          (if NILP elt
           then (size <=? strong_limit) && (size <=? limit)
           else true)
          && passes limit strong_limit k' rest (size + element_size elt)
      | _ => false
      end
  end.

(** No element of the list is a cons whose car is nil, as the records of
    text property changes are. *)
Definition no_property_record (l : Lisp_Object) : Prop :=
  Forall (fun elt => CONSP elt && NILP (XCAR elt) = false) (lisp_elements l).

(** The number of elements of the list that are cons cells. *)
Definition cons_records (l : Lisp_Object) : Z :=
  Z.of_nat (List.length (filter CONSP (lisp_elements l))).

(** The overflow handler, if there is one, never reports "handled". *)
Definition never_handles (st : state) : Prop :=
  forall h, Vundo_outer_limit_function st = Some h ->
            forall size, h size = NotHandled.

(** The list [l'] is [l] with some records pushed on top. *)
Definition extends (l l' : Lisp_Object) : Prop :=
  exists pushed : list Lisp_Object, l' = lisp_list pushed l.

(** The state [undo-boundary] leaves, when it does not signal. *)
Definition after_boundary (st : state) : state :=
  match Fundo_boundary st with
  | Ok st' => st'
  | Signal _ => st
  end.

End Boundaries.

(** The text of a buffer, for the samples: always "abc". *)
Definition sample_buffer_string (st : state) (from to : Z) : Lisp_Object := abc.


(** ** Lemmas on the state *)

Section StateLemmas.
Context {ext : Externals}.

Lemma bufs_update_same st p b : bufs (update_buffer st p b) p = b.
Proof. simpl. now rewrite Nat.eqb_refl. Qed.

Lemma bufs_update_other st p q b :
  q <> p -> bufs (update_buffer st p b) q = bufs st q.
Proof.
  intros Hne. simpl. destruct (Nat.eqb q p) eqn:E; [|reflexivity].
  apply Nat.eqb_eq in E. contradiction.
Qed.

Lemma BVAR_bset_same st b v : BVAR_undo_list (bset_undo_list st b v) b = v.
Proof. unfold BVAR_undo_list, bset_undo_list. now rewrite bufs_update_same. Qed.

Lemma BVAR_bset_other st b q v :
  q <> b -> BVAR_undo_list (bset_undo_list st b v) q = BVAR_undo_list st q.
Proof.
  intros Hne. unfold BVAR_undo_list, bset_undo_list.
  now rewrite bufs_update_other.
Qed.

Lemma frame_refl st : frame st st.
Proof. unfold frame. repeat split. Qed.

Lemma frame_trans st1 st2 st3 : frame st1 st2 -> frame st2 st3 -> frame st1 st3.
Proof.
  unfold frame. intros (A1 & A2 & A3 & A4 & A5) (B1 & B2 & B3 & B4 & B5).
  repeat split; try congruence;
    destruct (A5 b) as (? & ? & ? & ? & ?);
    destruct (B5 b) as (? & ? & ? & ? & ?); congruence.
Qed.

Lemma frame_bset st b v : frame st (bset_undo_list st b v).
Proof.
  unfold frame. repeat split; simpl; destruct (Nat.eqb b0 b) eqn:E;
    try reflexivity; apply Nat.eqb_eq in E; subst; reflexivity.
Qed.

Lemma frame_reserve st : frame st (reserve_pending_boundary st).
Proof.
  unfold reserve_pending_boundary. destruct (NILP _); [|apply frame_refl].
  unfold frame. repeat split.
Qed.

Lemma frame_announce st : frame st (announce_undoable_change st).
Proof.
  unfold announce_undoable_change. destruct (NILP _); [|apply frame_refl].
  unfold frame. repeat split; simpl;
    destruct (Nat.eqb b (current_buffer st)) eqn:E;
    try reflexivity; apply Nat.eqb_eq in E; subst; reflexivity.
Qed.

Lemma BVAR_reserve st b :
  BVAR_undo_list (reserve_pending_boundary st) b = BVAR_undo_list st b.
Proof. unfold reserve_pending_boundary. now destruct (NILP _). Qed.

Lemma BVAR_announce st b :
  BVAR_undo_list (announce_undoable_change st) b = BVAR_undo_list st b.
Proof.
  unfold announce_undoable_change, BVAR_undo_list.
  destruct (NILP _); [|reflexivity]. simpl.
  destruct (Nat.eqb b (current_buffer st)) eqn:E; [|reflexivity].
  apply Nat.eqb_eq in E. now subst.
Qed.

Lemma frame_record_first_change st : frame st (record_first_change st).
Proof.
  unfold record_first_change. destruct (EQ_Qt _); [apply frame_refl|].
  apply frame_bset.
Qed.

Lemma frame_record_point p st : frame st (record_point p st).
Proof.
  unfold record_point. destruct (undo_inhibit_record_point st); [apply frame_refl|].
  set (st1 := announce_undoable_change (reserve_pending_boundary st)).
  assert (F1 : frame st st1).
  { eapply frame_trans; [apply frame_reserve|apply frame_announce]. }
  cbv zeta.
  set (st2 := if modiff (bufs st1 (current_buffer st1))
                 <=? save_modiff (bufs st1 (current_buffer st1))
              then record_first_change st1 else st1).
  assert (F2 : frame st st2).
  { subst st2. destruct (_ <=? _); [|exact F1].
    eapply frame_trans; [exact F1|apply frame_record_first_change]. }
  destruct (_ && _); [|exact F2].
  eapply frame_trans; [exact F2|apply frame_bset].
Qed.

End StateLemmas.

(** ** The recorder: properties *)

Section RecorderProps.
Context {ext : Externals}.

Lemma make_number_exact n :
  0 < FIXNUM_BITS ->
  - 2 ^ (FIXNUM_BITS - 1) <= n < 2 ^ (FIXNUM_BITS - 1) ->
  make_number n = LInt n.
Proof.
  intros Hb Hn. unfold make_number. f_equal.
  assert (E : 2 ^ FIXNUM_BITS = 2 * 2 ^ (FIXNUM_BITS - 1)).
  { replace FIXNUM_BITS with (Z.succ (FIXNUM_BITS - 1)) at 1 by lia.
    apply Z.pow_succ_r. lia. }
  rewrite Z.mod_small; lia.
Qed.

Lemma make_number_small n :
  5 <= FIXNUM_BITS -> -16 <= n < 16 -> make_number n = LInt n.
Proof.
  intros Hb Hn. apply make_number_exact; [lia|].
  assert (2 ^ 4 <= 2 ^ (FIXNUM_BITS - 1)) by (apply Z.pow_le_mono_r; lia).
  change (2 ^ 4) with 16 in *. lia.
Qed.

Lemma record_point_quiet p st :
  undo_inhibit_record_point st = true
  \/ (CONSP (BVAR_undo_list st (current_buffer st)) = true
      /\ NILP (XCAR (BVAR_undo_list st (current_buffer st))) = false
      /\ save_modiff (bufs st (current_buffer st))
         < modiff (bufs st (current_buffer st))) ->
  forall b, BVAR_undo_list (record_point p st) b = BVAR_undo_list st b.
Proof.
  intros H b. unfold record_point.
  destruct (undo_inhibit_record_point st) eqn:Ei; [reflexivity|].
  destruct H as [H|(Hc & Hn & Hm)]; [discriminate|].
  set (st1 := announce_undoable_change (reserve_pending_boundary st)).
  assert (F1 : frame st st1).
  { eapply frame_trans; [apply frame_reserve|apply frame_announce]. }
  assert (B1 : forall q, BVAR_undo_list st1 q = BVAR_undo_list st q).
  { intros q. subst st1. now rewrite BVAR_announce, BVAR_reserve. }
  cbv zeta.
  destruct F1 as (Fc & _ & _ & _ & Fb).
  rewrite !Fc, !B1, Hc, Hn. simpl.
  destruct (Fb (current_buffer st)) as (_ & _ & Em & Es & _).
  rewrite Em, Es.
  destruct (Z.leb_spec (modiff (bufs st (current_buffer st)))
                       (save_modiff (bufs st (current_buffer st)))); [lia|].
  apply B1.
Qed.

Lemma frame_record_insert beg len st : frame st (record_insert beg len st).
Proof.
  unfold record_insert. destruct (EQ_Qt _); [apply frame_refl|].
  cbv zeta.
  pose proof (frame_record_point beg st) as F.
  destruct (BVAR_undo_list _ _);
    try (eapply frame_trans; [exact F|apply frame_bset]).
  destruct (_ && _); eapply frame_trans; try exact F; apply frame_bset.
Qed.

Lemma record_insert_pushes beg len st :
  EQ_Qt (BVAR_undo_list st (current_buffer st)) = false ->
  insertion_ending_at beg
    (BVAR_undo_list (record_point beg st) (current_buffer st)) = false ->
  BVAR_undo_list (record_insert beg len st) (current_buffer st)
  = LCons (LCons (make_number beg) (make_number (beg + len)))
          (BVAR_undo_list (record_point beg st) (current_buffer st)).
Proof.
  intros He Hi. unfold record_insert. rewrite He. cbv zeta.
  destruct (frame_record_point beg st) as (Fc & _).
  rewrite Fc in *.
  destruct (BVAR_undo_list (record_point beg st) (current_buffer st))
    as [| | | | | |elt rest] eqn:El; try apply BVAR_bset_same.
  destruct elt as [| | | | | |a d]; try apply BVAR_bset_same.
  destruct a; try apply BVAR_bset_same.
  destruct d; try apply BVAR_bset_same.
  simpl in Hi. simpl. rewrite Hi. apply BVAR_bset_same.
Qed.

Lemma record_insert_extends beg len st a rest :
  BVAR_undo_list st (current_buffer st)
  = LCons (LCons (LInt a) (LInt beg)) rest ->
  undo_inhibit_record_point st = true
  \/ save_modiff (bufs st (current_buffer st))
     < modiff (bufs st (current_buffer st)) ->
  BVAR_undo_list (record_insert beg len st) (current_buffer st)
  = LCons (LCons (LInt a) (make_number (beg + len))) rest.
Proof.
  intros Hl Hq. unfold record_insert. rewrite Hl. simpl EQ_Qt. cbv iota zeta.
  destruct (frame_record_point beg st) as (Fc & _).
  rewrite Fc.
  rewrite (record_point_quiet beg st).
  - rewrite Hl. simpl. rewrite Z.eqb_refl. apply BVAR_bset_same.
  - rewrite Hl. simpl. destruct Hq; [left|right]; auto.
Qed.


Lemma record_point_hint p st :
  undo_inhibit_record_point st = true
  \/ save_modiff (bufs st (current_buffer st))
     < modiff (bufs st (current_buffer st)) ->
  BVAR_undo_list (record_point p st) (current_buffer st)
  = BVAR_undo_list st (current_buffer st)
  \/ BVAR_undo_list (record_point p st) (current_buffer st)
     = LCons (make_number (last_boundary_position st))
             (BVAR_undo_list st (current_buffer st)).
Proof.
  intros H. unfold record_point.
  destruct (undo_inhibit_record_point st) eqn:Ei; [now left|].
  destruct H as [H|Hm]; [discriminate|].
  set (st1 := announce_undoable_change (reserve_pending_boundary st)).
  assert (F1 : frame st st1).
  { eapply frame_trans; [apply frame_reserve|apply frame_announce]. }
  assert (B1 : forall q, BVAR_undo_list st1 q = BVAR_undo_list st q).
  { intros q. subst st1. now rewrite BVAR_announce, BVAR_reserve. }
  cbv zeta.
  destruct F1 as (Fc & _ & _ & Fp & Fb).
  destruct (Fb (current_buffer st)) as (_ & _ & Em & Es & _).
  rewrite !Fc, !B1, Em, Es.
  destruct (Z.leb_spec (modiff (bufs st (current_buffer st)))
                       (save_modiff (bufs st (current_buffer st)))); [lia|].
  destruct (_ && _).
  - right. rewrite BVAR_bset_same, B1, Fp. reflexivity.
  - left. apply B1.
Qed.

Lemma record_marker_adjustment_step from to st m :
  record_marker_adjustment from to st m
  = if needs_adjustment from to m
    then bset_undo_list st (current_buffer st)
           (Fcons (adjustment_record from to m)
                  (BVAR_undo_list st (current_buffer st)))
    else st.
Proof.
  unfold record_marker_adjustment, needs_adjustment, adjustment_record,
    marker_delta.
  destruct ((from <=? charpos m) && (charpos m <=? to)); reflexivity.
Qed.

Lemma fold_adjustments from to ms : forall st,
  current_buffer (fold_left (record_marker_adjustment from to) ms st)
  = current_buffer st
  /\ BVAR_undo_list (fold_left (record_marker_adjustment from to) ms st)
                    (current_buffer st)
     = push_all (map (adjustment_record from to)
                     (filter (needs_adjustment from to) ms))
                (BVAR_undo_list st (current_buffer st))
  /\ frame st (fold_left (record_marker_adjustment from to) ms st).
Proof.
  induction ms as [|m ms IH]; intros st; simpl.
  - split; [reflexivity|split; [reflexivity|apply frame_refl]].
  - destruct (IH (record_marker_adjustment from to st m)) as (Ec & El & Ef).
    rewrite record_marker_adjustment_step in *.
    destruct (needs_adjustment from to m); simpl.
    + simpl in Ec, El. rewrite BVAR_bset_same in El.
      split; [exact Ec|split; [exact El|]].
      eapply frame_trans; [apply frame_bset|exact Ef].
    + split; [exact Ec|split; [exact El|exact Ef]].
Qed.

Lemma frame_record_marker_adjustments from to st :
  frame st (record_marker_adjustments from to st).
Proof.
  unfold record_marker_adjustments.
  eapply frame_trans; [apply frame_reserve|].
  eapply frame_trans; [apply frame_announce|].
  apply fold_adjustments.
Qed.

(** C5, as amended: marker correction pushes one record, marker and
    delta, for each marker of the current buffer whose position lies in
    the closed interval from [from] to [to] and whose delta (the end of
    the range for a marker that advances on insertion, its start
    otherwise, minus the position) is not zero, in the order of the marker
    chain, and no record for any other marker. *)
Theorem record_marker_adjustments_closed_range :
  forall (from to : Z) (st : state),
    BVAR_undo_list (record_marker_adjustments from to st) (current_buffer st)
    = push_all
        (map (adjustment_record from to)
             (filter (needs_adjustment from to)
                     (markers (bufs st (current_buffer st)))))
        (BVAR_undo_list st (current_buffer st))
    /\ forall m,
         needs_adjustment from to m = true
         <-> (from <= charpos m <= to
              /\ (if insertion_type m then to else from) - charpos m <> 0).
Proof.
  intros from to st. split.
  - unfold record_marker_adjustments.
    set (st1 := announce_undoable_change (reserve_pending_boundary st)).
    assert (F1 : frame st st1).
    { eapply frame_trans; [apply frame_reserve|apply frame_announce]. }
    destruct F1 as (Fc & _ & _ & _ & Fb).
    destruct (Fb (current_buffer st)) as (Em & _).
    destruct (fold_adjustments from to (markers (bufs st1 (current_buffer st1))) st1)
      as (_ & El & _).
    rewrite Fc in El. rewrite Fc, El, Em. subst st1.
    now rewrite BVAR_announce, BVAR_reserve.
  - intros m. unfold needs_adjustment, marker_delta.
    rewrite !andb_true_iff, negb_true_iff, Z.eqb_neq, !Z.leb_le. tauto.
Qed.

(** C10: for a deletion that begins at position 0, the record pushed
    when point is at the end of the deleted text and the record pushed
    when it is not are the same pair of the text and the fixnum 0: the
    flag is the sign of the position, and 0 has none. *)
Theorem record_delete_at_zero_loses_point_flag :
  forall (st st' : state) (str : Lisp_Object) (rm rm' : bool),
    EQ_Qt (BVAR_undo_list st (current_buffer st)) = false ->
    EQ_Qt (BVAR_undo_list st' (current_buffer st')) = false ->
    pt (bufs st (current_buffer st)) = 0 + SCHARS str ->
    pt (bufs st' (current_buffer st')) <> 0 + SCHARS str ->
    XCAR (BVAR_undo_list (record_delete 0 str rm st) (current_buffer st))
    = Fcons str (make_number 0)
    /\ XCAR (BVAR_undo_list (record_delete 0 str rm' st') (current_buffer st'))
       = Fcons str (make_number 0).
Proof.
  intros st st' str rm rm' He He' Hp Hp'.
  assert (G : forall s p r,
             current_buffer
               (if r : bool
                then record_marker_adjustments 0 (0 + SCHARS str) (record_point p s)
                else record_point p s) = current_buffer s).
  { intros s p r. destruct r.
    - destruct (frame_record_marker_adjustments 0 (0 + SCHARS str) (record_point p s))
        as (E1 & _).
      destruct (frame_record_point p s) as (E2 & _). congruence.
    - apply frame_record_point. }
  split.
  - unfold record_delete. rewrite He, Hp, Z.eqb_refl. cbv zeta iota beta.
    rewrite G, BVAR_bset_same. reflexivity.
  - unfold record_delete. rewrite He'.
    destruct (Z.eqb_spec (pt (bufs st' (current_buffer st'))) (0 + SCHARS str));
      [contradiction|].
    cbv zeta iota beta. rewrite G, BVAR_bset_same. reflexivity.
Qed.

(** C6, as amended: in a buffer modified since its last save, or with
    point recording inhibited, [record_insert] at [b] on a list whose
    head is an insertion record ending at [b] replaces the end of that
    record by [b + n] and pushes nothing; and from a list whose head is
    not an insertion ending at 10, [record_insert] of 3 at 10 and then of
    2 at 13 leaves the single record from 10 to 15 where the first call
    had pushed the record from 10 to 13 (fixnums of five bits or more
    hold these positions). *)
Theorem record_insert_coalesces_when_modified :
  forall st : state,
    undo_inhibit_record_point st = true
    \/ save_modiff (bufs st (current_buffer st))
       < modiff (bufs st (current_buffer st)) ->
    (forall a b n rest,
        BVAR_undo_list st (current_buffer st)
        = LCons (LCons (LInt a) (LInt b)) rest ->
        BVAR_undo_list (record_insert b n st) (current_buffer st)
        = LCons (LCons (LInt a) (make_number (b + n))) rest)
    /\ (5 <= FIXNUM_BITS ->
        EQ_Qt (BVAR_undo_list st (current_buffer st)) = false ->
        insertion_ending_at 10 (BVAR_undo_list st (current_buffer st)) = false ->
        exists tail,
          (tail = BVAR_undo_list st (current_buffer st)
           \/ tail = LCons (make_number (last_boundary_position st))
                           (BVAR_undo_list st (current_buffer st)))
          /\ BVAR_undo_list (record_insert 10 3 st) (current_buffer st)
             = LCons (LCons (LInt 10) (LInt 13)) tail
          /\ BVAR_undo_list (record_insert 13 2 (record_insert 10 3 st))
                            (current_buffer st)
             = LCons (LCons (LInt 10) (LInt 15)) tail).
Proof.
  intros st Hq. split.
  - intros a b n rest Hl. now apply record_insert_extends.
  - intros Hbits He Hi.
    exists (BVAR_undo_list (record_point 10 st) (current_buffer st)).
    assert (Ht : insertion_ending_at 10
                   (BVAR_undo_list (record_point 10 st) (current_buffer st))
                 = false).
    { destruct (record_point_hint 10 st Hq) as [E|E]; rewrite E; [exact Hi|].
      reflexivity. }
    pose proof (record_insert_pushes 10 3 st He Ht) as E1.
    rewrite (make_number_small 10), (make_number_small (10 + 3)) in E1
      by (try assumption; lia).
    split; [apply record_point_hint; exact Hq|].
    split; [exact E1|].
    destruct (frame_record_insert 10 3 st) as (Fc & Fi & _ & _ & Fb).
    destruct (Fb (current_buffer st)) as (_ & _ & Em & Es & _).
    pose proof (record_insert_extends 13 2 (record_insert 10 3 st) 10
                  (BVAR_undo_list (record_point 10 st) (current_buffer st)))
      as E2.
    rewrite Fc, Fi, Em, Es in E2.
    rewrite (make_number_small (13 + 2)) in E2 by (try assumption; lia).
    apply E2; assumption.
Qed.

(** C9, as amended: for every count argument, [undo-size] answers nil
    without looking at the count when undo is disabled in the buffer; with
    undo enabled it signals wrong-type-argument, and returns no size, for
    every count that is neither nil nor an integer, and returns a size for
    every integer count, negative ones included, and for no count. *)
Theorem undo_size_rejects_only_non_numbers :
  forall (junk : undo_size_locals) (st : state),
    (EQ_Qt (BVAR_undo_list st (current_buffer st)) = true ->
     forall n, Fundo_size_from junk n st = Ok Qnil)
    /\ (EQ_Qt (BVAR_undo_list st (current_buffer st)) = false ->
        (forall n, n <> Qnil -> INTEGERP n = false ->
           Fundo_size_from junk n st
           = Signal (wrong_type_argument Qintegerp n))
        /\ (forall k : Z, exists size,
              Fundo_size_from junk (LInt k) st = Ok (make_number size))
        /\ (exists size, Fundo_size_from junk Qnil st = Ok (make_number size))).
Proof.
  intros junk st. unfold Fundo_size_from. split; intros He; rewrite He.
  - reflexivity.
  - split; [|split].
    + intros n Hn Hi. unfold CHECK_NUMBER. rewrite Hi.
      destruct n; try reflexivity. contradiction.
    + intros k. simpl. eexists. reflexivity.
    + simpl. eexists. reflexivity.
Qed.

(** On any build, the scan for a count of zero, or for no count, ends at
    a text property record at the head of the list, whatever follows. *)
Theorem undo_size_zero_stops_at_property_change :
  forall (prop val : Lisp_Object) (b e : Z) (rest : Lisp_Object),
    Fundo_size (LInt 0)
      (syms_of_undo
         (modified_buffer (LCons (property_change prop val b e) rest)))
    = Ok (make_number (0 + sizeof_Lisp_Cons))
    /\ Fundo_size Qnil
         (syms_of_undo
            (modified_buffer (LCons (property_change prop val b e) rest)))
       = Ok (make_number (0 + sizeof_Lisp_Cons)).
Proof. intros. split; reflexivity. Qed.

(** In an indirect buffer the first-change record goes on that buffer's
    own list, with the time asked while that buffer is current; the list
    of the base buffer is not touched. *)
Theorem record_first_change_ignores_base_buffer :
  forall (l0 : Lisp_Object) (records : list Lisp_Object),
    let st := indirect_session l0 (lisp_list records Qnil) in
    current_buffer st = 1%nat
    /\ base_buffer (bufs st 1%nat) = Some O
    /\ BVAR_undo_list (record_first_change st) 1%nat
       = LCons (LCons Qt (Fvisited_file_modtime st)) (lisp_list records Qnil)
    /\ BVAR_undo_list (record_first_change st) O = l0.
Proof.
  intros l0 records st.
  destruct records; repeat split; reflexivity.
Qed.

End RecorderProps.

(** ** Truncation: properties *)

Section TruncationProps.
Context {ext : Externals}.

Lemma skip_to_boundary_pos next0 : forall prev0 pos0 size0,
  linked prev0 pos0 ->
  let s := skip_to_boundary next0 prev0 pos0 size0 in
  linked (prev s) (pos s)
  /\ pos s = (pos0 + List.length (command_records next0))%nat.
Proof.
  induction next0 as [| | | | | |elt _ rest IH]; intros prev0 pos0 size0 Hl;
    simpl; try (split; [exact Hl|lia]).
  destruct (NILP elt); simpl.
  - split; [exact Hl|lia].
  - destruct (IH (Some pos0) (S pos0) (size0 + element_size elt)) as (A & B).
    + reflexivity.
    + split; [exact A|]. rewrite B. lia.
Qed.

Lemma scan_first_command_pos list :
  let s := scan_first_command list in
  linked (prev s) (pos s)
  /\ pos s = (leading_boundary list
              + List.length (most_recent_command list))%nat.
Proof.
  unfold scan_first_command, skip_leading_boundary, most_recent_command,
    leading_boundary.
  destruct list as [| | | | | |elt rest]; simpl; try (split; reflexivity).
  destruct (NILP elt) eqn:En; cbn [next prev pos size_so_far].
  - apply (skip_to_boundary_pos rest (Some O) 1%nat (0 + sizeof_Lisp_Cons)).
    reflexivity.
  - pose proof (skip_to_boundary_pos (LCons elt rest) None O 0 eq_refl) as P.
    cbn [command_records] in P. rewrite En in P. exact P.
Qed.

Lemma keep_additional_keeps limit strong k next0 :
  forall prev0 pos0 size0 lb0,
    linked prev0 pos0 -> (k <= pos0)%nat -> keeps k lb0 ->
    keeps k (last_boundary
               (keep_additional limit strong next0 prev0 pos0 size0 lb0)).
Proof.
  induction next0 as [| | | | | |elt _ rest IH]; intros prev0 pos0 size0 lb0 Hl Hk Hb;
    simpl; try exact Hb.
  assert (Hp : keeps k prev0).
  { destruct prev0; simpl in *; [lia|exact I]. }
  destruct (NILP elt).
  - destruct (size0 >? strong); [exact Hb|].
    destruct (size0 >? limit); [exact Hp|].
    apply IH; [reflexivity|lia|exact Hp].
  - apply IH; [reflexivity|lia|exact Hb].
Qed.

Lemma command_records_cut i : forall l,
  (List.length (command_records l) <= S i)%nat ->
  command_records (XSETCDR_at i l Qnil) = command_records l.
Proof.
  induction i as [|i IH]; intros l Hlen;
    destruct l as [| | | | | |elt rest]; simpl in *; try reflexivity.
  - destruct (NILP elt); [reflexivity|]. simpl in Hlen.
    destruct (command_records rest); [reflexivity|simpl in Hlen; lia].
  - destruct (NILP elt); [reflexivity|]. simpl in Hlen.
    rewrite IH; [reflexivity|lia].
Qed.

Lemma most_recent_command_cut i l :
  (leading_boundary l + List.length (most_recent_command l) <= S i)%nat ->
  most_recent_command (XSETCDR_at i l Qnil) = most_recent_command l.
Proof.
  intros Hlen. destruct l as [| | | | | |elt rest]; try reflexivity.
  unfold leading_boundary, most_recent_command in Hlen.
  destruct (NILP elt) eqn:En.
  - destruct i as [|i]; simpl in *; rewrite En.
    + destruct (command_records rest); [reflexivity|simpl in Hlen; lia].
    + apply command_records_cut. lia.
  - pose proof (command_records_cut i (LCons elt rest) Hlen) as C.
    destruct i; simpl in *; rewrite En in *; exact C.
Qed.

Lemma command_records_incl l r :
  In r (command_records l) -> In r (lisp_elements l).
Proof.
  induction l as [| | | | | |elt _ rest IH]; simpl; try tauto.
  destruct (NILP elt); simpl; [tauto|]. intros [H|H]; auto.
Qed.

Lemma most_recent_command_incl l r :
  In r (most_recent_command l) -> In r (lisp_elements l).
Proof.
  destruct l as [| | | | | |elt rest]; simpl; try tauto.
  destruct (NILP elt) eqn:E.
  - intros H. right. now apply command_records_incl.
  - intros H. apply (command_records_incl (LCons elt rest)). simpl.
    now rewrite E.
Qed.

Lemma finish_scan_keeps limit strong list i :
  finish (scan_additional limit strong (scan_first_command list)) = Cut_after i ->
  (pos (scan_first_command list) <= S i)%nat.
Proof.
  destruct (scan_first_command_pos list) as (Hl & _).
  cbv zeta in Hl. unfold finish, scan_additional.
  set (s := scan_first_command list) in *.
  pose proof (keep_additional_keeps limit strong (pos s) (next s) (prev s) (pos s)
                (size_so_far s) (if CONSP (next s) then prev s else None) Hl
                (Nat.le_refl _)) as K.
  destruct (NILP _); [discriminate|].
  destruct (last_boundary _) as [j|]; [|discriminate].
  intros E. injection E as ->. apply K.
  destruct (CONSP _); [|exact I].
  destruct (prev s); simpl in *; [lia|exact I].
Qed.

(** C1: when [truncate_undo_list] neither returns on the word of the
    overflow handler nor clears the list, the records of the most recent
    command (those between the head, past a leading boundary, and the
    first boundary after them) are the same after it as before, whatever
    their size, and each of them is an element of the list it leaves. *)
Theorem truncate_keeps_most_recent_command :
  forall (st : state) (b : buffer_ptr),
    (forall l, truncate_decision st b <> Overflow_handled l) ->
    truncate_decision st b <> Cleared ->
    most_recent_command (BVAR_undo_list (truncate_undo_list b st) b)
    = most_recent_command (BVAR_undo_list st b)
    /\ forall r,
         In r (most_recent_command (BVAR_undo_list st b)) ->
         In r (lisp_elements (BVAR_undo_list (truncate_undo_list b st) b)).
Proof.
  intros st b Hh Hc.
  assert (E : most_recent_command (BVAR_undo_list (truncate_undo_list b st) b)
              = most_recent_command (BVAR_undo_list st b)).
  { unfold truncate_undo_list.
    destruct (truncate_decision st b) as [l| |i|] eqn:D.
    - exfalso. exact (Hh l eq_refl).
    - reflexivity.
    - rewrite BVAR_bset_same. simpl.
      assert (F : finish (scan_additional (undo_limit st) (undo_strong_limit st)
                            (scan_first_command (BVAR_undo_list st b)))
                  = Cut_after i).
      { unfold truncate_decision in D.
        destruct (outer_limit_handler _ _) as [h|]; [|exact D].
        destruct (h _); [discriminate|exact D]. }
      apply finish_scan_keeps in F.
      destruct (scan_first_command_pos (BVAR_undo_list st b)) as (_ & A).
      cbv zeta in A.
      apply most_recent_command_cut. lia.
    - exfalso. exact (Hc eq_refl). }
  split; [exact E|].
  intros r Hr. rewrite <- E in Hr. now apply most_recent_command_incl.
Qed.

Lemma lisp_elements_cut p : forall l,
  lisp_elements (XSETCDR_at p l Qnil) = firstn (S p) (lisp_elements l).
Proof.
  induction p as [|p IH]; intros l; destruct l as [| | | | | |elt rest];
    try reflexivity.
  cbn [XSETCDR_at lisp_elements]. rewrite IH. reflexivity.
Qed.

Lemma Fnthcdr_nil n : Fnthcdr n Qnil = Qnil.
Proof. induction n; simpl; auto. Qed.

Lemma Fnthcdr_element n : forall l a d,
  Fnthcdr n l = LCons a d -> nth_error (lisp_elements l) n = Some a.
Proof.
  induction n as [|n IH]; intros l a d H; simpl in H.
  - subst l. reflexivity.
  - destruct l as [| | | | | |elt rest]; simpl in H;
      try (rewrite Fnthcdr_nil in H; discriminate).
    simpl. eapply IH. exact H.
Qed.

Lemma Fnthcdr_succ n : forall l, Fnthcdr (S n) l = XCDR (Fnthcdr n l).
Proof.
  induction n as [|n IH]; intros l; [reflexivity|].
  change (Fnthcdr (S (S n)) l) with (Fnthcdr (S n) (XCDR l)).
  rewrite IH. reflexivity.
Qed.

Lemma skip_to_boundary_nth list next0 : forall prev0 pos0 size0,
  Fnthcdr pos0 list = next0 ->
  let s := skip_to_boundary next0 prev0 pos0 size0 in
  Fnthcdr (pos s) list = next s /\ (pos0 <= pos s)%nat.
Proof.
  induction next0 as [| | | | | |elt _ rest IH]; intros prev0 pos0 size0 H;
    simpl; try (split; [exact H|lia]).
  destruct (NILP elt); simpl; [split; [exact H|lia]|].
  destruct (IH (Some pos0) (S pos0) (size0 + element_size elt)) as (A & B).
  - rewrite Fnthcdr_succ, H. reflexivity.
  - split; [exact A|lia].
Qed.

Lemma scan_first_command_nth list :
  let s := scan_first_command list in
  Fnthcdr (pos s) list = next s /\ (pos s = O -> CONSP (next s) = false).
Proof.
  unfold scan_first_command, skip_leading_boundary.
  destruct list as [| | | | | |elt rest]; simpl; try (split; reflexivity).
  destruct (NILP elt) eqn:En; cbn [next prev pos size_so_far].
  - destruct (skip_to_boundary_nth (LCons elt rest) rest (Some O) 1%nat
                (0 + sizeof_Lisp_Cons) eq_refl) as (A & B).
    cbv zeta in A, B. split; [exact A|].
    intros Hz. exfalso. simpl in B, Hz. lia.
  - simpl. rewrite En. simpl.
    destruct (skip_to_boundary_nth (LCons elt rest) rest (Some O) 1%nat
                (0 + element_size elt) eq_refl) as (A & B).
    cbv zeta in A, B. split; [exact A|].
    intros Hz. exfalso. simpl in B, Hz. lia.
Qed.

(** Every state of the scan has [prev] just before [next], and [next] is
    the tail of the list at [pos]. *)
Lemma scanned_invariant limit strong list s :
  scanned limit strong list s ->
  linked (prev s) (pos s)
  /\ Fnthcdr (pos s) list = next s
  /\ (pos s = O -> CONSP (next s) = false).
Proof.
  induction 1 as [|s elt rest _ (L & N & Z0) Hn _].
  - destruct (scan_first_command_pos list) as (L & _).
    destruct (scan_first_command_nth list) as (N & Z0).
    cbv zeta in L, N, Z0. simpl. auto.
  - cbn [prev next pos]. split; [reflexivity|]. split; [|intros; discriminate].
    rewrite Fnthcdr_succ, N, Hn. reflexivity.
Qed.

(** From every state of the scan the loop ends as it does from the
    entry state. *)
Lemma scanned_final limit strong list s :
  scanned limit strong list s ->
  keep_additional limit strong (next s) (prev s) (pos s) (size_so_far s)
                  (last_boundary s)
  = scan_additional limit strong (scan_first_command list).
Proof.
  induction 1 as [|s elt rest _ IH Hn Hgo]; [reflexivity|].
  rewrite <- IH. rewrite Hn. simpl.
  destruct (NILP elt).
  - destruct Hgo as [Hgo|(Hs & Hl)]; [discriminate|].
    destruct (Z.gtb_spec (size_so_far s) strong); [lia|].
    destruct (Z.gtb_spec (size_so_far s) limit); [lia|].
    reflexivity.
  - reflexivity.
Qed.

Lemma skip_to_boundary_proper next0 : forall prev0 pos0 size0,
  proper_list next0 = true ->
  proper_list (next (skip_to_boundary next0 prev0 pos0 size0)) = true.
Proof.
  induction next0 as [| | | | | |elt _ rest IH]; intros prev0 pos0 size0 H;
    simpl in *; try discriminate; try reflexivity.
  destruct (NILP elt); simpl; [exact H|]. now apply IH.
Qed.

Lemma keep_additional_proper limit strong next0 :
  forall prev0 pos0 size0 lb0,
    proper_list next0 = true ->
    prev0 <> None ->
    (CONSP next0 = true -> lb0 <> None) ->
    finish (keep_additional limit strong next0 prev0 pos0 size0 lb0)
    <> Cleared.
Proof.
  induction next0 as [| | | | | |elt _ rest IH]; intros prev0 pos0 size0 lb0 H Hp Hb;
    simpl in *; try discriminate.
  assert (Hl : lb0 <> None) by auto.
  destruct (NILP elt).
  - destruct (size0 >? strong).
    + unfold finish. simpl. destruct lb0; [discriminate|contradiction].
    + destruct (size0 >? limit).
      * unfold finish. simpl. destruct prev0; [discriminate|contradiction].
      * apply IH; auto; discriminate.
  - apply IH; auto; discriminate.
Qed.

(** On a list that ends in nil the clearing branch of line 483 is never
    taken. *)
Lemma proper_list_never_cleared st b :
  proper_list (BVAR_undo_list st b) = true ->
  truncate_decision st b <> Cleared.
Proof.
  intros H.
  assert (F : finish (scan_additional (undo_limit st) (undo_strong_limit st)
                        (scan_first_command (BVAR_undo_list st b)))
              <> Cleared).
  { unfold scan_additional, additional_entry. cbn [prev next pos size_so_far last_boundary].
    destruct (scan_first_command_pos (BVAR_undo_list st b)) as (L & _).
    destruct (scan_first_command_nth (BVAR_undo_list st b)) as (_ & Z0).
    cbv zeta in L, Z0.
    assert (P : proper_list (next (scan_first_command (BVAR_undo_list st b)))
                = true).
    { unfold scan_first_command, skip_leading_boundary.
      destruct (BVAR_undo_list st b) as [| | | | | |elt rest];
        try discriminate; try reflexivity.
      destruct (NILP elt); apply skip_to_boundary_proper; exact H. }
    set (s := scan_first_command (BVAR_undo_list st b)) in *.
    destruct (next s) as [| | | | | |elt rest] eqn:En; try discriminate.
    apply keep_additional_proper; [exact P| |].
    - destruct (prev s); [discriminate|].
      simpl in L. specialize (Z0 L). discriminate.
    - intros _. simpl.
      destruct (prev s); [discriminate|].
      simpl in L. specialize (Z0 L). discriminate. }
  unfold truncate_decision.
  destruct (outer_limit_handler _ _) as [h|]; [|exact F].
  destruct (h _); [discriminate|exact F].
Qed.

(** The candidate cut point of every state of the scan is a cell before
    [next]. *)
Lemma scanned_candidate limit strong list s :
  scanned limit strong list s ->
  forall j, last_boundary s = Some j -> (S j <= pos s)%nat.
Proof.
  induction 1 as [|s elt rest Hs IH Hn _]; intros j Hj.
  - destruct (scan_first_command_pos list) as (L & _). cbv zeta in L.
    unfold additional_entry in *. cbn [last_boundary pos] in *.
    destruct (CONSP _); [|discriminate].
    rewrite Hj in L. simpl in L. lia.
  - cbn [last_boundary pos] in *.
    destruct (scanned_invariant _ _ _ _ Hs) as (L & _).
    destruct (NILP elt).
    + rewrite Hj in L. simpl in L. lia.
    + specialize (IH j Hj). lia.
Qed.

(** C2, as amended: whenever the scan of [truncate_undo_list] past the
    first command stands at a boundary, that boundary is in the cell
    after some cell [p], and: if the size counted so far is above the
    strong limit, the scan stops there with the candidate cut point as it
    was, and the cut falls before that boundary: what is kept is a run
    of elements that all precede it; otherwise the candidate becomes cell
    [p], the cell just before that boundary, so that a cut there keeps
    the [p + 1] elements before the boundary and drops the boundary with
    the rest, and if the size is above the soft limit the scan stops
    there; below both limits the scan goes on past the boundary, charged
    as one cons cell. *)
Theorem truncate_cut_point_at_boundary :
  forall (limit strong : Z) (list back : Lisp_Object) (s : scan),
    scanned limit strong list s ->
    next s = LCons Qnil back ->
    exists p : nat,
      prev s = Some p
      /\ boundary_at (S p) list back
      /\ (size_so_far s > strong ->
          scan_additional limit strong (scan_first_command list) = s
          /\ finish (scan_additional limit strong (scan_first_command list))
             = match last_boundary s with
               | Some j => Cut_after j
               | None => Cleared
               end
          /\ exists k,
               (k <= S p)%nat
               /\ lisp_elements
                    (truncated list
                       (finish (scan_additional limit strong
                                                (scan_first_command list))))
                  = firstn k (lisp_elements list))
      /\ (size_so_far s <= strong -> size_so_far s > limit ->
          scan_additional limit strong (scan_first_command list)
          = mkScan (Some p) (LCons Qnil back) (S p) (size_so_far s) (Some p)
          /\ truncated list
               (finish (scan_additional limit strong
                                        (scan_first_command list)))
             = XSETCDR_at p list Qnil
          /\ lisp_elements (XSETCDR_at p list Qnil)
             = firstn (S p) (lisp_elements list)
          /\ nth_error (lisp_elements list) (S p) = Some Qnil)
      /\ (size_so_far s <= strong -> size_so_far s <= limit ->
          scanned limit strong list
                  (mkScan (Some (S p)) back (S (S p))
                          (size_so_far s + sizeof_Lisp_Cons) (Some p))).
Proof.
  intros limit strong list back s Hs Hn.
  destruct (scanned_invariant _ _ _ _ Hs) as (L & N & Z0).
  pose proof (scanned_final _ _ _ _ Hs) as F.
  pose proof (scanned_candidate _ _ _ _ Hs) as Cd.
  destruct s as [pv nx ps sz lb]. simpl in *. subst nx.
  destruct pv as [p|]; simpl in L; [subst ps|subst ps; now specialize (Z0 eq_refl)].
  exists p. split; [reflexivity|]. split; [exact N|].
  simpl in F. split; [|split].
  - intros Hgt. destruct (Z.gtb_spec sz strong); [|lia]. rewrite <- F.
    split; [reflexivity|]. split; [reflexivity|].
    unfold finish. cbn [next last_boundary NILP].
    destruct lb as [j|].
    + exists (S j). split; [specialize (Cd j eq_refl); lia|].
      apply lisp_elements_cut.
    + exists O. split; [lia|reflexivity].
  - intros Hle Hgt.
    destruct (Z.gtb_spec sz strong); [lia|].
    destruct (Z.gtb_spec sz limit); [|lia].
    rewrite <- F. split; [reflexivity|]. split; [reflexivity|].
    split; [apply lisp_elements_cut|].
    exact (Fnthcdr_element (S p) list Qnil back N).
  - intros Hle Hle'.
    pose proof (scanned_next limit strong list _ Qnil back Hs eq_refl
                  (or_intror (conj Hle Hle'))) as Hnext.
    simpl in Hnext. unfold element_size in Hnext. simpl in Hnext.
    replace (sz + (sizeof_Lisp_Cons + 0)) with (sz + sizeof_Lisp_Cons)
      in Hnext by lia.
    exact Hnext.
Qed.

End TruncationProps.


(** ** Evaluations on the 64-bit build *)

(** C1, on three commands with limits 50 and 90: the handler is not
    called, the list is cut after the most recent command, and that
    command's record is still there. *)
Lemma truncate_keeps_most_recent_command_witness :
  (forall h, @truncate_decision lp64 (session three_commands 50 90) O
             <> Overflow_handled h)
  /\ @truncate_decision lp64 (session three_commands 50 90) O <> Cleared
  /\ BVAR_undo_list (@truncate_undo_list lp64 O (session three_commands 50 90)) O
     = lisp_list [Qnil; insertion 1 3] Qnil
  /\ most_recent_command
       (BVAR_undo_list (@truncate_undo_list lp64 O (session three_commands 50 90)) O)
     = [insertion 1 3].
Proof.
  assert (H1 : forall h, @truncate_decision lp64 (session three_commands 50 90) O
                         <> Overflow_handled h)
    by (intros h; vm_compute; discriminate).
  assert (H2 : @truncate_decision lp64 (session three_commands 50 90) O <> Cleared)
    by (vm_compute; discriminate).
  split; [exact H1|]. split; [exact H2|]. split; [reflexivity|].
  destruct (@truncate_keeps_most_recent_command lp64 _ O H1 H2) as (E & _).
  rewrite E. reflexivity.
Defined.

(** C2 as stated fails: with the soft limit passed at the first boundary
    met (cell 1), the list is cut through cell 0, just before that
    boundary, and not through cell 1, just after it; the boundary is
    dropped with what follows. *)
Lemma soft_limit_cut_drops_the_boundary :
  nth_error (lisp_elements two_commands) 1 = Some Qnil
  /\ BVAR_undo_list (@truncate_undo_list lp64 O (session two_commands 0 1000)) O
     = XSETCDR_at 0 two_commands Qnil
  /\ BVAR_undo_list (@truncate_undo_list lp64 O (session two_commands 0 1000)) O
     <> XSETCDR_at 1 two_commands Qnil.
Proof.
  split; [reflexivity|]. split; [reflexivity|].
  vm_compute. discriminate.
Qed.

(** C2 as amended, on [two_commands]: the scan enters at the boundary
    in cell 1 with 32 bytes counted.  With limits 0 and 1000 it stops
    there on the soft limit and the cut keeps cell 0 alone; with limits 0
    and 10 it stops there on the strong limit, the candidate is still the
    one set on entry, and the cut again keeps cell 0, before the
    boundary. *)
Lemma truncate_cut_point_at_boundary_witness :
  @scanned lp64 0 1000 two_commands
           (mkScan (Some O) (LCons Qnil (lisp_list [insertion 4 6] Qnil))
                   1 32 (Some O))
  /\ 32 <= 1000 /\ 32 > 0
  /\ truncated two_commands
       (finish (@scan_additional lp64 0 1000
                  (@scan_first_command lp64 two_commands)))
     = lisp_list [insertion 1 3] Qnil
  /\ @scanned lp64 0 10 two_commands
              (mkScan (Some O) (LCons Qnil (lisp_list [insertion 4 6] Qnil))
                      1 32 (Some O))
  /\ 32 > 10
  /\ truncated two_commands
       (finish (@scan_additional lp64 0 10
                  (@scan_first_command lp64 two_commands)))
     = lisp_list [insertion 1 3] Qnil.
Proof.
  assert (H : @scanned lp64 0 1000 two_commands
                (mkScan (Some O) (LCons Qnil (lisp_list [insertion 4 6] Qnil))
                        1 32 (Some O)))
    by exact (@scanned_entry lp64 0 1000 two_commands).
  assert (H' : @scanned lp64 0 10 two_commands
                 (mkScan (Some O) (LCons Qnil (lisp_list [insertion 4 6] Qnil))
                         1 32 (Some O)))
    by exact (@scanned_entry lp64 0 10 two_commands).
  split; [exact H|]. split; [lia|]. split; [lia|].
  destruct (@truncate_cut_point_at_boundary lp64 0 1000 two_commands _ _ H
              eq_refl) as (p & Hp & _ & _ & soft & _).
  injection Hp as <-.
  destruct soft as (_ & E & _); [simpl; lia|simpl; lia|].
  split; [exact E|]. split; [exact H'|]. split; [lia|].
  destruct (@truncate_cut_point_at_boundary lp64 0 10 two_commands _ _ H'
              eq_refl) as (q & _ & _ & hard & _).
  destruct hard as (_ & F & _); [simpl; lia|].
  rewrite F. reflexivity.
Defined.

(** C3: [undo-size] with a count of zero, and with no count, on a list
    whose first record is a text property change followed by an
    insertion: the answer is one cons cell, 16 bytes; the insertion is
    not counted. *)
Theorem undo_size_zero_misses_the_rest :
  @Fundo_size lp64 (LInt 0)
    (session (lisp_list [property_change (LSymbol "face") (LSymbol "bold") 1 5;
                         insertion 1 3] Qnil) 80000 120000)
  = Ok (LInt 16)
  /\ @Fundo_size lp64 Qnil
       (session (lisp_list [property_change (LSymbol "face") (LSymbol "bold") 1 5;
                            insertion 1 3] Qnil) 80000 120000)
     = Ok (LInt 16)
  /\ @Fundo_size lp64 (LInt 0)
       (session (lisp_list [insertion 1 3;
                            property_change (LSymbol "face") (LSymbol "bold") 1 5]
                           Qnil) 80000 120000)
     = Ok (LInt 32).
Proof. repeat split; reflexivity. Qed.

(** C4: for one insertion record [undo-size] answers 16 where the scan
    of [truncate_undo_list] has counted 32, and for one deletion record
    of three characters 50 against 66: the cons cell of the record is
    charged by the truncation scan only. *)
Theorem undo_size_undercounts_records :
  @Fundo_size lp64 (LInt 0) (session (lisp_list [insertion 1 3] Qnil) 80000 120000)
  = Ok (LInt 16)
  /\ size_so_far
       (@scan_additional lp64 80000 120000
          (@scan_first_command lp64 (lisp_list [insertion 1 3] Qnil)))
     = 32
  /\ @Fundo_size lp64 (LInt 0)
       (session (lisp_list [deletion abc 5] Qnil) 80000 120000)
     = Ok (LInt 50)
  /\ size_so_far
       (@scan_additional lp64 80000 120000
          (@scan_first_command lp64 (lisp_list [deletion abc 5] Qnil)))
     = 66.
Proof. repeat split; reflexivity. Qed.

(** C5 as stated fails: for the range from 5 to 8, a marker at 8 that
    does not advance on insertion lies outside the half-open interval,
    and a record with adjustment -3 is pushed for it. *)
Lemma marker_at_range_end_is_recorded :
  ~ (5 <= 8 < 8)
  /\ BVAR_undo_list
       (@record_marker_adjustments lp64 5 8
          (marker_session Qnil [mkMarker 4 8 false] 1)) O
     = lisp_list [LCons (LMarker 4) (LInt (-3))] Qnil.
Proof. split; [lia|reflexivity]. Qed.

(** C5 as amended, on six markers at 5, 6, 7, 8, 8 and 9 for the range
    from 5 to 8: records for the markers at 6, 7 and the first one at 8. *)
Lemma record_marker_adjustments_closed_range_witness :
  BVAR_undo_list
    (@record_marker_adjustments lp64 5 8 (marker_session Qnil sample_markers 1)) O
  = lisp_list [LCons (LMarker 4) (LInt (-3)); LCons (LMarker 3) (LInt 1);
               LCons (LMarker 2) (LInt (-1))] Qnil.
Proof.
  destruct (@record_marker_adjustments_closed_range lp64 5 8
              (marker_session Qnil sample_markers 1)) as (E & _).
  etransitivity; [exact E|]. reflexivity.
Defined.

(** C6 as stated fails: in a buffer saved after its last change, with
    the insertion from 5 to 10 at the head of the list, recording an
    insertion at 10 pushes a first-change record and a new insertion
    record; the head record is not extended. *)
Lemma record_insert_after_save_pushes :
  insertion_ending_at 10
    (BVAR_undo_list (saved_session (lisp_list [insertion 5 10] Qnil)) O) = true
  /\ BVAR_undo_list
       (@record_insert lp64 10 3 (saved_session (lisp_list [insertion 5 10] Qnil))) O
     = lisp_list [insertion 10 13; LCons Qt (LInt 1700000000); insertion 5 10]
                 Qnil.
Proof. split; reflexivity. Qed.

(** C6 as amended, in a modified buffer: the head record from 5 to 10 is
    extended to 13, and on an empty list the two insertions at 10 and 13
    leave the one record from 10 to 15. *)
Lemma record_insert_coalesces_when_modified_witness :
  (save_modiff (bufs (session Qnil 80000 120000) O)
   < modiff (bufs (session Qnil 80000 120000) O))
  /\ BVAR_undo_list
       (@record_insert lp64 10 3 (session (lisp_list [insertion 5 10] Qnil) 80000 120000)) O
     = lisp_list [insertion 5 13] Qnil
  /\ BVAR_undo_list
       (@record_insert lp64 13 2 (@record_insert lp64 10 3 (session Qnil 80000 120000))) O
     = lisp_list [insertion 10 15] Qnil.
Proof.
  assert (M : forall l, undo_inhibit_record_point (session l 80000 120000) = true
                        \/ save_modiff (bufs (session l 80000 120000)
                                             (current_buffer (session l 80000 120000)))
                           < modiff (bufs (session l 80000 120000)
                                          (current_buffer (session l 80000 120000))))
    by (intros l; right; simpl; lia).
  split; [simpl; lia|]. split.
  - destruct (@record_insert_coalesces_when_modified lp64 _
                (M (lisp_list [insertion 5 10] Qnil))) as (E & _).
    exact (E 5 10 3 Qnil eq_refl).
  - destruct (@record_insert_coalesces_when_modified lp64 _ (M Qnil)) as (_ & E).
    destruct E as (tail & _ & E1 & E2);
      [simpl; lia|reflexivity|reflexivity|].
    assert (T : tail = Qnil) by (vm_compute in E1; now injection E1).
    rewrite T in E2. exact E2.
Defined.

(** C7: [record_first_change] in an indirect buffer (1) over a base
    buffer (0) that visits a file: the record lands on the list of buffer
    1 with the time of buffer 1, which visits no file; buffer 0, whose
    time is 1700000000, is left as it was. *)
Theorem record_first_change_in_indirect_buffer :
  base_buffer (bufs (indirect_session Qnil Qnil) 1%nat) = Some O
  /\ current_buffer (indirect_session Qnil Qnil) = 1%nat
  /\ modtime (bufs (indirect_session Qnil Qnil) O) = LInt 1700000000
  /\ BVAR_undo_list (@record_first_change lp64 (indirect_session Qnil Qnil)) 1%nat
     = lisp_list [LCons Qt (LInt 0)] Qnil
  /\ BVAR_undo_list (@record_first_change lp64 (indirect_session Qnil Qnil)) O
     = Qnil.
Proof. repeat split; reflexivity. Qed.

(** C8: [truncate_undo_list] on lists that do not end in nil.  With
    undo disabled (the list is t) the list becomes nil; a first command
    that ends in a stray atom is cleared as well; with a stray atom after
    a second command, the list is cut after the first command, though no
    limit is passed. *)
Theorem truncate_changes_improper_lists :
  BVAR_undo_list (@truncate_undo_list lp64 O (session Qt 80000 120000)) O = Qnil
  /\ BVAR_undo_list
       (@truncate_undo_list lp64 O
          (session (lisp_list [insertion 1 3] (LInt 7)) 80000 120000)) O
     = Qnil
  /\ BVAR_undo_list
       (@truncate_undo_list lp64 O
          (session (lisp_list [insertion 1 3; Qnil; insertion 4 6] (LInt 7))
                   80000 120000)) O
     = lisp_list [insertion 1 3] Qnil.
Proof. repeat split; reflexivity. Qed.

(** C9 as stated fails: a count of -1 is accepted and a size comes
    back. *)
Lemma undo_size_accepts_negative_count :
  @Fundo_size lp64 (LInt (-1)) (session (lisp_list [insertion 1 3] Qnil) 80000 120000)
  = Ok (LInt 16).
Proof. reflexivity. Qed.

(** C9 as amended, on the list of one insertion: a symbol as count is
    refused, the count -1 is not; and with undo disabled the symbol gets
    nil. *)
Lemma undo_size_rejects_only_non_numbers_witness :
  EQ_Qt (BVAR_undo_list (session (lisp_list [insertion 1 3] Qnil) 80000 120000) O)
  = false
  /\ @Fundo_size_from lp64 zeroed (LSymbol "many")
       (session (lisp_list [insertion 1 3] Qnil) 80000 120000)
     = Signal (wrong_type_argument Qintegerp (LSymbol "many"))
  /\ (exists size,
        @Fundo_size_from lp64 zeroed (LInt (-1))
          (session (lisp_list [insertion 1 3] Qnil) 80000 120000)
        = Ok (@make_number lp64 size))
  /\ EQ_Qt (BVAR_undo_list (session Qt 80000 120000) O) = true
  /\ @Fundo_size_from lp64 zeroed (LSymbol "many") (session Qt 80000 120000)
     = Ok Qnil.
Proof.
  assert (H : EQ_Qt (BVAR_undo_list
                       (session (lisp_list [insertion 1 3] Qnil) 80000 120000)
                       (current_buffer
                          (session (lisp_list [insertion 1 3] Qnil) 80000 120000)))
              = false) by reflexivity.
  assert (D : EQ_Qt (BVAR_undo_list (session Qt 80000 120000)
                                    (current_buffer (session Qt 80000 120000)))
              = true) by reflexivity.
  split; [exact H|].
  destruct (@undo_size_rejects_only_non_numbers lp64 zeroed
              (session (lisp_list [insertion 1 3] Qnil) 80000 120000))
    as (_ & E).
  destruct (E H) as (R & A & _).
  split; [apply R; [discriminate|reflexivity]|].
  split; [exact (A (-1))|].
  split; [exact D|].
  destruct (@undo_size_rejects_only_non_numbers lp64 zeroed
              (session Qt 80000 120000)) as (N & _).
  exact (N D (LSymbol "many")).
Defined.

(** C10, deleting "abc" at position 0 with point at 3 in one buffer and
    at 1 in another: the record is ("abc" . 0) in both. *)
Lemma record_delete_at_zero_loses_point_flag_witness :
  pt (bufs (marker_session Qnil [] 3) O) = 0 + SCHARS abc
  /\ pt (bufs (marker_session Qnil [] 1) O) <> 0 + SCHARS abc
  /\ XCAR (BVAR_undo_list
             (@record_delete lp64 0 abc true (marker_session Qnil [] 3)) O)
     = deletion abc 0
  /\ XCAR (BVAR_undo_list
             (@record_delete lp64 0 abc true (marker_session Qnil [] 1)) O)
     = deletion abc 0.
Proof.
  assert (H1 : pt (bufs (marker_session Qnil [] 3) O) = 0 + SCHARS abc)
    by reflexivity.
  assert (H2 : pt (bufs (marker_session Qnil [] 1) O) <> 0 + SCHARS abc)
    by (simpl; lia).
  split; [exact H1|]. split; [exact H2|].
  exact (@record_delete_at_zero_loses_point_flag lp64
           (marker_session Qnil [] 3) (marker_session Qnil [] 1) abc true true
           eq_refl eq_refl H1 H2).
Defined.

(** ** The recorder and the boundaries: further properties *)

Section JournalProps.
Context {ext : Externals}.

Lemma extends_refl l : extends l l.
Proof. exists []. reflexivity. Qed.

Lemma extends_push l l' r : extends l l' -> extends l (LCons r l').
Proof. intros (p & ->). exists (r :: p). reflexivity. Qed.

Lemma extends_trans l1 l2 l3 : extends l1 l2 -> extends l2 l3 -> extends l1 l3.
Proof.
  intros (p & ->) (q & ->). exists (q ++ p).
  induction q as [|r q IH]; simpl; [reflexivity|]. now rewrite IH.
Qed.

Lemma extends_push_all rs l : extends l (push_all rs l).
Proof.
  unfold push_all. revert l.
  induction rs as [|r rs IH]; intros l; simpl; [apply extends_refl|].
  eapply extends_trans; [|apply IH]. apply extends_push, extends_refl.
Qed.

Lemma BVAR_record_first_change st :
  EQ_Qt (BVAR_undo_list st (current_buffer st)) = false ->
  BVAR_undo_list (record_first_change st) (current_buffer st)
  = LCons (first_change_record st) (BVAR_undo_list st (current_buffer st)).
Proof.
  intros He. unfold record_first_change. rewrite He. apply BVAR_bset_same.
Qed.

Lemma other_record_first_change st b :
  b <> current_buffer st ->
  BVAR_undo_list (record_first_change st) b = BVAR_undo_list st b.
Proof.
  intros Hb. unfold record_first_change. destruct (EQ_Qt _); [reflexivity|].
  now apply BVAR_bset_other.
Qed.

Lemma extends_record_first_change st :
  extends (BVAR_undo_list st (current_buffer st))
          (BVAR_undo_list (record_first_change st) (current_buffer st)).
Proof.
  unfold record_first_change. destruct (EQ_Qt _); [apply extends_refl|].
  rewrite BVAR_bset_same. apply extends_push, extends_refl.
Qed.

Lemma record_point_lists p st :
  extends (BVAR_undo_list st (current_buffer st))
          (BVAR_undo_list (record_point p st) (current_buffer st))
  /\ forall b, b <> current_buffer st ->
       BVAR_undo_list (record_point p st) b = BVAR_undo_list st b.
Proof.
  unfold record_point.
  destruct (undo_inhibit_record_point st); [split; [apply extends_refl|reflexivity]|].
  set (st1 := announce_undoable_change (reserve_pending_boundary st)).
  assert (F1 : frame st st1).
  { eapply frame_trans; [apply frame_reserve|apply frame_announce]. }
  assert (B1 : forall q, BVAR_undo_list st1 q = BVAR_undo_list st q).
  { intros q. subst st1. now rewrite BVAR_announce, BVAR_reserve. }
  cbv zeta.
  destruct F1 as (Fc & _).
  set (st2 := if modiff (bufs st1 (current_buffer st1))
                 <=? save_modiff (bufs st1 (current_buffer st1))
              then record_first_change st1 else st1).
  assert (E2 : extends (BVAR_undo_list st (current_buffer st))
                       (BVAR_undo_list st2 (current_buffer st))
               /\ forall b, b <> current_buffer st ->
                    BVAR_undo_list st2 b = BVAR_undo_list st b).
  { subst st2. destruct (_ <=? _).
    - split.
      + rewrite <- Fc, <- (B1 (current_buffer st1)).
        apply extends_record_first_change.
      + intros b Hb. rewrite other_record_first_change by congruence. apply B1.
    - split; [rewrite B1; apply extends_refl|intros; apply B1]. }
  destruct E2 as (E2 & O2). rewrite Fc.
  destruct (_ && _).
  - split.
    + rewrite BVAR_bset_same. apply extends_push. exact E2.
    + intros b Hb. rewrite BVAR_bset_other by exact Hb. now apply O2.
  - split; assumption.
Qed.

Lemma record_marker_adjustments_lists from to st :
  BVAR_undo_list (record_marker_adjustments from to st) (current_buffer st)
  = push_all (map (adjustment_record from to)
                  (filter (needs_adjustment from to)
                          (markers (bufs st (current_buffer st)))))
             (BVAR_undo_list st (current_buffer st)).
Proof.
  unfold record_marker_adjustments.
  set (st1 := announce_undoable_change (reserve_pending_boundary st)).
  assert (F1 : frame st st1).
  { eapply frame_trans; [apply frame_reserve|apply frame_announce]. }
  destruct F1 as (Fc & _ & _ & _ & Fb).
  destruct (Fb (current_buffer st)) as (Em & _).
  destruct (fold_adjustments from to (markers (bufs st1 (current_buffer st1))) st1)
    as (_ & El & _).
  rewrite Fc in El. rewrite Fc, El, Em. subst st1.
  now rewrite BVAR_announce, BVAR_reserve.
Qed.

Lemma fold_adjustments_other from to ms : forall st b,
  b <> current_buffer st ->
  BVAR_undo_list (fold_left (record_marker_adjustment from to) ms st) b
  = BVAR_undo_list st b.
Proof.
  induction ms as [|m ms IH]; intros st b Hb; simpl; [reflexivity|].
  rewrite IH.
  - rewrite record_marker_adjustment_step.
    destruct (needs_adjustment from to m); [|reflexivity].
    now apply BVAR_bset_other.
  - rewrite record_marker_adjustment_step.
    destruct (needs_adjustment from to m); exact Hb.
Qed.

Lemma record_marker_adjustments_other from to st b :
  b <> current_buffer st ->
  BVAR_undo_list (record_marker_adjustments from to st) b = BVAR_undo_list st b.
Proof.
  intros Hb. unfold record_marker_adjustments.
  rewrite fold_adjustments_other.
  - now rewrite BVAR_announce, BVAR_reserve.
  - destruct (frame_announce (reserve_pending_boundary st)) as (E1 & _).
    destruct (frame_reserve st) as (E2 & _). congruence.
Qed.

Lemma record_point_shape p st :
  exists pushed,
    BVAR_undo_list (record_point p st) (current_buffer st)
    = lisp_list pushed (BVAR_undo_list st (current_buffer st))
    /\ Forall point_record pushed
    /\ (List.length pushed <= 2)%nat.
Proof.
  unfold record_point.
  destruct (undo_inhibit_record_point st).
  { exists []. repeat split; [constructor|simpl; lia]. }
  set (st1 := announce_undoable_change (reserve_pending_boundary st)).
  assert (F1 : frame st st1).
  { eapply frame_trans; [apply frame_reserve|apply frame_announce]. }
  assert (B1 : forall q, BVAR_undo_list st1 q = BVAR_undo_list st q).
  { intros q. subst st1. now rewrite BVAR_announce, BVAR_reserve. }
  cbv zeta.
  destruct F1 as (Fc & _).
  set (st2 := if modiff (bufs st1 (current_buffer st1))
                 <=? save_modiff (bufs st1 (current_buffer st1))
              then record_first_change st1 else st1).
  assert (E2 : exists pushed,
             BVAR_undo_list st2 (current_buffer st)
             = lisp_list pushed (BVAR_undo_list st (current_buffer st))
             /\ Forall point_record pushed /\ (List.length pushed <= 1)%nat).
  { subst st2. destruct (_ <=? _).
    - unfold record_first_change. rewrite Fc. destruct (EQ_Qt _).
      + exists []. rewrite B1. repeat split; [constructor|simpl; lia].
      + exists [first_change_record st1]. rewrite BVAR_bset_same, B1.
        repeat split; [|simpl; lia].
        constructor; [right; eauto|constructor].
    - exists []. rewrite B1. repeat split; [constructor|simpl; lia]. }
  destruct E2 as (pushed & E & Fa & Ln). rewrite Fc.
  destruct (_ && _).
  - exists (make_number (last_boundary_position st2) :: pushed).
    rewrite BVAR_bset_same, E. repeat split; [|simpl; lia].
    constructor; [left; eauto|exact Fa].
  - exists pushed. repeat split; [exact E|exact Fa|lia].
Qed.

Lemma point_record_not_insertion beg r l :
  point_record r -> insertion_ending_at beg (LCons r l) = false.
Proof.
  intros [(x & ->)|(s & ->)]; reflexivity.
Qed.

Lemma record_point_head beg st :
  BVAR_undo_list (record_point beg st) (current_buffer st)
  = BVAR_undo_list st (current_buffer st)
  \/ insertion_ending_at beg
       (BVAR_undo_list (record_point beg st) (current_buffer st)) = false.
Proof.
  destruct (record_point_shape beg st) as (pushed & E & Fa & _).
  destruct pushed as [|r pushed]; [left; exact E|right].
  rewrite E.
  apply (point_record_not_insertion beg r (lisp_list pushed _)).
  now inversion Fa.
Qed.

Lemma announced_refl st : announced st st.
Proof. split; [reflexivity|left; split; reflexivity]. Qed.

Lemma announced_trans st1 st2 st3 :
  announced st1 st2 -> announced st2 st3 -> announced st1 st3.
Proof.
  unfold announced, undoably_changed_flag.
  intros (C1 & [(H1 & F1)|(N1 & H1 & F1)]) (C2 & [(H2 & F2)|(N2 & H2 & F2)]);
    rewrite ?C1, ?C2 in *; split; try congruence.
  - left. split; congruence.
  - right. rewrite F1, H1 in *. repeat split; congruence.
  - right. repeat split; congruence.
  - rewrite F1 in N2. discriminate.
Qed.

Lemma announced_bset st b v : announced st (bset_undo_list st b v).
Proof.
  split; [reflexivity|left]. split; [reflexivity|].
  unfold undoably_changed_flag. simpl.
  destruct (Nat.eqb (current_buffer st) b) eqn:E; [|reflexivity].
  apply Nat.eqb_eq in E. now subst.
Qed.

Lemma announced_reserve st : announced st (reserve_pending_boundary st).
Proof.
  unfold reserve_pending_boundary. destruct (NILP _); [|apply announced_refl].
  split; [reflexivity|left; split; reflexivity].
Qed.

Lemma announced_announce st : announced st (announce_undoable_change st).
Proof.
  unfold announce_undoable_change.
  destruct (NILP _) eqn:E; [|apply announced_refl].
  split; [reflexivity|right]. split; [exact E|]. split; [reflexivity|].
  unfold undoably_changed_flag. simpl. now rewrite Nat.eqb_refl.
Qed.

Lemma announced_record_first_change st : announced st (record_first_change st).
Proof.
  unfold record_first_change. destruct (EQ_Qt _); [apply announced_refl|].
  apply announced_bset.
Qed.

Lemma announced_record_point p st : announced st (record_point p st).
Proof.
  unfold record_point.
  destruct (undo_inhibit_record_point st); [apply announced_refl|].
  cbv zeta.
  eapply announced_trans; [apply announced_reserve|].
  eapply announced_trans; [apply announced_announce|].
  set (st1 := announce_undoable_change (reserve_pending_boundary st)).
  set (st2 := if modiff (bufs st1 (current_buffer st1))
                 <=? save_modiff (bufs st1 (current_buffer st1))
              then record_first_change st1 else st1).
  assert (A2 : announced st1 st2).
  { subst st2. destruct (_ <=? _);
      [apply announced_record_first_change|apply announced_refl]. }
  destruct (_ && _); [|exact A2].
  eapply announced_trans; [exact A2|apply announced_bset].
Qed.

Lemma announced_record_insert beg len st : announced st (record_insert beg len st).
Proof.
  unfold record_insert. destruct (EQ_Qt _); [apply announced_refl|].
  cbv zeta.
  destruct (BVAR_undo_list _ _);
    try (eapply announced_trans; [apply announced_record_point|apply announced_bset]).
  destruct (_ && _);
    (eapply announced_trans; [apply announced_record_point|apply announced_bset]).
Qed.

Lemma announced_fold from to ms : forall st,
  announced st (fold_left (record_marker_adjustment from to) ms st).
Proof.
  induction ms as [|m ms IH]; intros st; simpl; [apply announced_refl|].
  eapply announced_trans; [|apply IH].
  rewrite record_marker_adjustment_step.
  destruct (needs_adjustment from to m); [apply announced_bset|apply announced_refl].
Qed.

Lemma announced_record_marker_adjustments from to st :
  announced st (record_marker_adjustments from to st).
Proof.
  unfold record_marker_adjustments.
  eapply announced_trans; [apply announced_reserve|].
  eapply announced_trans; [apply announced_announce|apply announced_fold].
Qed.

Lemma announced_record_delete beg str rm st :
  announced st (record_delete beg str rm st).
Proof.
  unfold record_delete. destruct (EQ_Qt _); [apply announced_refl|].
  cbv zeta.
  destruct (_ =? _); cbv iota beta;
    (eapply announced_trans; [|apply announced_bset]);
    destruct rm;
    try (eapply announced_trans;
         [apply announced_record_point|apply announced_record_marker_adjustments]);
    apply announced_record_point.
Qed.

(** X6: over any two recordings in a row the first-undoable-change hook
    runs at most once: each of [record_insert] and [record_delete] runs it
    at most once, only while the flag of the buffer is nil, and leaves the
    flag set when it does. *)
Theorem first_change_hook_runs_at_most_once :
  forall (st : state) (beg len beg' : Z) (str : Lisp_Object) (rm : bool),
    announced st (record_insert beg len st)
    /\ announced st (record_delete beg' str rm st)
    /\ announced st (record_delete beg' str rm (record_insert beg len st))
    /\ announced st (record_insert beg len (record_delete beg' str rm st)).
Proof.
  intros. split; [apply announced_record_insert|].
  split; [apply announced_record_delete|].
  split; (eapply announced_trans;
          [|first [apply announced_record_delete|apply announced_record_insert]]);
    first [apply announced_record_insert|apply announced_record_delete].
Qed.

(** *** The reserved boundary cell *)

Lemma pending_fold from to ms : forall st,
  pending_boundary (fold_left (record_marker_adjustment from to) ms st)
  = pending_boundary st.
Proof.
  induction ms as [|m ms IH]; intros st; simpl; [reflexivity|].
  rewrite IH, record_marker_adjustment_step.
  now destruct (needs_adjustment from to m).
Qed.

Lemma pending_reserve st :
  pending_boundary (reserve_pending_boundary st) = reserved st.
Proof. unfold reserve_pending_boundary, reserved. now destruct (NILP _). Qed.

Lemma pending_announce st :
  pending_boundary (announce_undoable_change st) = pending_boundary st.
Proof. unfold announce_undoable_change. now destruct (NILP _). Qed.

Lemma pending_record_first_change st :
  pending_boundary (record_first_change st) = pending_boundary st.
Proof. unfold record_first_change. now destruct (EQ_Qt _). Qed.

Lemma pending_record_point p st :
  pending_boundary (record_point p st)
  = if undo_inhibit_record_point st then pending_boundary st else reserved st.
Proof.
  unfold record_point. destruct (undo_inhibit_record_point st); [reflexivity|].
  cbv zeta.
  set (st1 := announce_undoable_change (reserve_pending_boundary st)).
  assert (P1 : pending_boundary st1 = reserved st).
  { subst st1. now rewrite pending_announce, pending_reserve. }
  destruct (_ && _); simpl; destruct (_ <=? _);
    rewrite ?pending_record_first_change; exact P1.
Qed.

Lemma pending_record_marker_adjustments from to st :
  pending_boundary (record_marker_adjustments from to st) = reserved st.
Proof.
  unfold record_marker_adjustments.
  now rewrite pending_fold, pending_announce, pending_reserve.
Qed.

Lemma reserved_ok st : pending_boundary_ok st ->
  exists d, reserved st = LCons Qnil d.
Proof.
  unfold pending_boundary_ok, reserved.
  intros [E|(d & E)]; rewrite E; simpl; eauto.
Qed.

Lemma reserved_reserved st st' :
  pending_boundary st' = reserved st -> reserved st' = reserved st.
Proof.
  intros E. unfold reserved at 1. rewrite E. unfold reserved.
  now destruct (NILP (pending_boundary st)) eqn:N; [|rewrite N].
Qed.

Lemma pending_record_insert beg len st :
  EQ_Qt (BVAR_undo_list st (current_buffer st)) = false ->
  pending_boundary (record_insert beg len st)
  = if undo_inhibit_record_point st then pending_boundary st else reserved st.
Proof.
  intros He. unfold record_insert. rewrite He. cbv zeta.
  rewrite <- pending_record_point with (p := beg).
  destruct (BVAR_undo_list (record_point beg st)
                           (current_buffer (record_point beg st)));
    try reflexivity.
  now destruct (_ && _).
Qed.

Lemma pending_record_delete beg str rm st :
  EQ_Qt (BVAR_undo_list st (current_buffer st)) = false ->
  pending_boundary (record_delete beg str rm st)
  = if negb rm && undo_inhibit_record_point st
    then pending_boundary st else reserved st.
Proof.
  intros He. unfold record_delete. rewrite He. cbv zeta.
  assert (G : forall p,
             pending_boundary
               (if rm
                then record_marker_adjustments beg (beg + SCHARS str)
                                               (record_point p st)
                else record_point p st)
             = if negb rm && undo_inhibit_record_point st
               then pending_boundary st else reserved st).
  { intros p. destruct rm; simpl.
    - rewrite pending_record_marker_adjustments.
      pose proof (pending_record_point p st) as E.
      destruct (undo_inhibit_record_point st).
      + unfold reserved. now rewrite E.
      + now apply reserved_reserved.
    - apply pending_record_point. }
  destruct (_ =? _); cbv iota beta; apply G.
Qed.

(** *** Shapes of the lists left by the recorder *)

Lemma record_insert_other beg len st b :
  b <> current_buffer st ->
  BVAR_undo_list (record_insert beg len st) b = BVAR_undo_list st b.
Proof.
  intros Hb. unfold record_insert. destruct (EQ_Qt _); [reflexivity|].
  cbv zeta.
  destruct (frame_record_point beg st) as (Fc & _).
  destruct (record_point_lists beg st) as (_ & O).
  rewrite Fc.
  destruct (BVAR_undo_list (record_point beg st) (current_buffer st));
    try (rewrite BVAR_bset_other by exact Hb; now apply O).
  destruct (_ && _); rewrite BVAR_bset_other by exact Hb; now apply O.
Qed.

Lemma record_insert_result beg len st :
  EQ_Qt (BVAR_undo_list st (current_buffer st)) = false ->
  exists a rest,
    BVAR_undo_list (record_insert beg len st) (current_buffer st)
    = LCons (LCons a (make_number (beg + len))) rest
    /\ INTEGERP a = true
    /\ (extends (BVAR_undo_list st (current_buffer st)) rest
        \/ exists e, BVAR_undo_list st (current_buffer st)
                     = LCons (LCons a e) rest).
Proof.
  intros He. unfold record_insert. rewrite He. cbv zeta.
  destruct (frame_record_point beg st) as (Fc & _).
  destruct (record_point_lists beg st) as (Ex & _).
  pose proof (record_point_head beg st) as Hd.
  rewrite Fc.
  assert (Push : exists a rest,
             LCons (LCons (make_number beg) (make_number (beg + len)))
                   (BVAR_undo_list (record_point beg st) (current_buffer st))
             = LCons (LCons a (make_number (beg + len))) rest
             /\ INTEGERP a = true
             /\ (extends (BVAR_undo_list st (current_buffer st)) rest
                 \/ exists e, BVAR_undo_list st (current_buffer st)
                              = LCons (LCons a e) rest)).
  { exists (make_number beg), (BVAR_undo_list (record_point beg st) (current_buffer st)).
    split; [reflexivity|]. split; [reflexivity|]. left. exact Ex. }
  destruct (BVAR_undo_list (record_point beg st) (current_buffer st))
    as [| | | | | |elt rest] eqn:El; try (rewrite BVAR_bset_same; exact Push).
  destruct (CONSP elt && INTEGERP (XCAR elt) && INTEGERP (XCDR elt)
            && (XINT (XCDR elt) =? beg)) eqn:C;
    rewrite BVAR_bset_same; [|exact Push].
  apply andb_true_iff in C. destruct C as (C & C4).
  apply andb_true_iff in C. destruct C as (C & C3).
  apply andb_true_iff in C. destruct C as (C1 & C2).
  destruct elt as [| | | | | |a e]; try discriminate.
  destruct a; try discriminate. destruct e; try discriminate.
  simpl in C4.
  exists (LInt z), rest. split; [reflexivity|]. split; [reflexivity|].
  right. destruct Hd as [Hd|Hd].
  - rewrite <- Hd. eauto.
  - simpl in Hd. congruence.
Qed.

Lemma record_delete_result beg str rm st :
  EQ_Qt (BVAR_undo_list st (current_buffer st)) = false ->
  let at_end := pt (bufs st (current_buffer st)) =? beg + SCHARS str in
  BVAR_undo_list (record_delete beg str rm st) (current_buffer st)
  = LCons (LCons str (make_number (if at_end then - beg else beg)))
      (push_all
         (if rm
          then map (adjustment_record beg (beg + SCHARS str))
                   (filter (needs_adjustment beg (beg + SCHARS str))
                           (markers (bufs st (current_buffer st))))
          else [])
         (BVAR_undo_list
            (record_point (if at_end then pt (bufs st (current_buffer st))
                           else beg) st)
            (current_buffer st))).
Proof.
  intros He at_end. unfold record_delete. rewrite He. cbv zeta.
  assert (G : forall p sbeg,
             BVAR_undo_list
               (let st1 := if rm
                           then record_marker_adjustments beg (beg + SCHARS str)
                                                          (record_point p st)
                           else record_point p st in
                bset_undo_list st1 (current_buffer st1)
                  (Fcons (Fcons str sbeg)
                         (BVAR_undo_list st1 (current_buffer st1))))
               (current_buffer st)
             = LCons (LCons str sbeg)
                 (push_all
                    (if rm
                     then map (adjustment_record beg (beg + SCHARS str))
                              (filter (needs_adjustment beg (beg + SCHARS str))
                                      (markers (bufs st (current_buffer st))))
                     else [])
                    (BVAR_undo_list (record_point p st) (current_buffer st)))).
  { intros p sbeg. cbv zeta.
    destruct (frame_record_point p st) as (Fc & _ & _ & _ & Fb).
    destruct (Fb (current_buffer st)) as (Em & _).
    destruct rm.
    - destruct (frame_record_marker_adjustments beg (beg + SCHARS str)
                  (record_point p st)) as (Fc' & _).
      rewrite Fc', Fc, BVAR_bset_same.
      pose proof (record_marker_adjustments_lists beg (beg + SCHARS str)
                    (record_point p st)) as L.
      rewrite Fc, Em in L. rewrite L. reflexivity.
    - rewrite Fc, BVAR_bset_same. reflexivity. }
  subst at_end.
  destruct (_ =? _); cbv iota beta; apply G.
Qed.

Lemma record_delete_other beg str rm st b :
  b <> current_buffer st ->
  BVAR_undo_list (record_delete beg str rm st) b = BVAR_undo_list st b.
Proof.
  intros Hb. unfold record_delete. destruct (EQ_Qt _); [reflexivity|].
  cbv zeta.
  assert (G : forall p sbeg,
             BVAR_undo_list
               (let st1 := if rm
                           then record_marker_adjustments beg (beg + SCHARS str)
                                                          (record_point p st)
                           else record_point p st in
                bset_undo_list st1 (current_buffer st1)
                  (Fcons (Fcons str sbeg)
                         (BVAR_undo_list st1 (current_buffer st1)))) b
             = BVAR_undo_list st b).
  { intros p sbeg. cbv zeta.
    destruct (frame_record_point p st) as (Fc & _).
    destruct (record_point_lists p st) as (_ & O).
    destruct rm.
    - destruct (frame_record_marker_adjustments beg (beg + SCHARS str)
                  (record_point p st)) as (Fc' & _).
      rewrite BVAR_bset_other by congruence.
      rewrite record_marker_adjustments_other by congruence. now apply O.
    - rewrite BVAR_bset_other by congruence. now apply O. }
  destruct (_ =? _); cbv iota beta; apply G.
Qed.

Lemma frame_record_delete beg str rm st :
  frame st (record_delete beg str rm st).
Proof.
  unfold record_delete. destruct (EQ_Qt _); [apply frame_refl|]. cbv zeta.
  destruct (_ =? _); cbv iota beta;
    (eapply frame_trans; [|apply frame_bset]);
    destruct rm;
    try (eapply frame_trans;
         [apply frame_record_point|apply frame_record_marker_adjustments]);
    apply frame_record_point.
Qed.

(** *** Boundaries *)

Lemma Fundo_boundary_pushes st e rest :
  BVAR_undo_list st (current_buffer st) = LCons e rest ->
  NILP e = false ->
  pending_boundary_ok st ->
  exists st',
    Fundo_boundary st = Ok st'
    /\ BVAR_undo_list st' (current_buffer st) = LCons Qnil (LCons e rest)
    /\ current_buffer st' = current_buffer st
    /\ pending_boundary st' = Qnil
    /\ last_boundary_position st' = pt (bufs st (current_buffer st))
    /\ last_boundary_buffer st' = Some (current_buffer st)
    /\ undo_inhibit_record_point st' = undo_inhibit_record_point st
    /\ forall q, modiff (bufs st' q) = modiff (bufs st q)
                 /\ save_modiff (bufs st' q) = save_modiff (bufs st q).
Proof.
  intros El Hn Hp. unfold Fundo_boundary. rewrite El. simpl. rewrite Hn. simpl.
  destruct Hp as [Hp|(d & Hp)]; rewrite Hp; simpl;
    eexists; (split; [reflexivity|]); unfold BVAR_undo_list; simpl;
    rewrite ?Nat.eqb_refl; simpl; repeat split; auto;
    destruct (Nat.eqb q (current_buffer st)) eqn:E; try reflexivity;
    apply Nat.eqb_eq in E; subst; reflexivity.
Qed.

(** X7: once an insertion or a deletion has been recorded in a buffer
    with undo enabled, [undo-boundary] succeeds, pushes exactly one
    boundary on top of the record, empties the reserved cell, and notes
    point and the buffer as those of the last boundary; and unless point
    recording is inhibited the recording itself had reserved the cell. *)
Theorem undo_boundary_after_recording :
  forall (st : state) (beg len : Z) (str : Lisp_Object) (rm : bool),
    EQ_Qt (BVAR_undo_list st (current_buffer st)) = false ->
    pending_boundary_ok st ->
    (exists st',
        Fundo_boundary (record_insert beg len st) = Ok st'
        /\ BVAR_undo_list st' (current_buffer st)
           = LCons Qnil
               (BVAR_undo_list (record_insert beg len st) (current_buffer st))
        /\ pending_boundary st' = Qnil
        /\ last_boundary_position st' = pt (bufs st (current_buffer st))
        /\ last_boundary_buffer st' = Some (current_buffer st))
    /\ (exists st',
           Fundo_boundary (record_delete beg str rm st) = Ok st'
           /\ BVAR_undo_list st' (current_buffer st)
              = LCons Qnil
                  (BVAR_undo_list (record_delete beg str rm st)
                                  (current_buffer st))
           /\ pending_boundary st' = Qnil
           /\ last_boundary_position st' = pt (bufs st (current_buffer st))
           /\ last_boundary_buffer st' = Some (current_buffer st))
    /\ (undo_inhibit_record_point st = false ->
        (exists d, pending_boundary (record_insert beg len st) = LCons Qnil d)
        /\ (exists d, pending_boundary (record_delete beg str rm st)
                      = LCons Qnil d)).
Proof.
  intros st beg len str rm He Hp.
  destruct (reserved_ok st Hp) as (d & Hd).
  split; [|split].
  - destruct (record_insert_result beg len st He) as (a & rest & El & _).
    destruct (frame_record_insert beg len st) as (Fc & _ & _ & _ & Fb).
    destruct (Fb (current_buffer st)) as (_ & Ept & _).
    destruct (Fundo_boundary_pushes (record_insert beg len st)
                (LCons a (make_number (beg + len))) rest) as (st' & H);
      [rewrite Fc; exact El|reflexivity| |].
    + unfold pending_boundary_ok. rewrite pending_record_insert by exact He.
      destruct (undo_inhibit_record_point st); [exact Hp|right; eauto].
    + exists st'. rewrite Fc, Ept, <- El in H. tauto.
  - pose proof (record_delete_result beg str rm st He) as El. cbv zeta in El.
    destruct (frame_record_delete beg str rm st) as (Fc & _ & _ & _ & Fb).
    destruct (Fb (current_buffer st)) as (_ & Ept & _).
    destruct (Fundo_boundary_pushes (record_delete beg str rm st) _ _
                (eq_trans (f_equal _ Fc) El)) as (st' & H); [reflexivity| |].
    + unfold pending_boundary_ok. rewrite pending_record_delete by exact He.
      destruct (negb rm && undo_inhibit_record_point st); [exact Hp|right; eauto].
    + exists st'. rewrite Fc, Ept, <- El in H. tauto.
  - intros Hi. split.
    + rewrite pending_record_insert by exact He. rewrite Hi. eauto.
    + rewrite pending_record_delete by exact He. rewrite Hi, andb_false_r. eauto.
Qed.

(** X8: a second [undo-boundary] right after a first one changes
    nothing: it pushes no second boundary and leaves the whole state as
    the first call left it. *)
Theorem undo_boundary_twice_is_once :
  forall st st1 : state,
    pending_boundary_ok st ->
    Fundo_boundary st = Ok st1 ->
    Fundo_boundary st1 = Ok st1.
Proof.
  intros st st1 Hp H. unfold Fundo_boundary, BVAR_undo_list in *.
  destruct (EQ_Qt (undo_list (bufs st (current_buffer st)))) eqn:He.
  { injection H as <-. now rewrite He. }
  destruct (undo_list (bufs st (current_buffer st))) as [| | | | | |e rest] eqn:El;
    try discriminate; simpl in H.
  - injection H as <-. simpl. rewrite El. reflexivity.
  - destruct (NILP e) eqn:Hn; simpl in H.
    + injection H as <-. simpl. rewrite El. simpl. rewrite Hn. reflexivity.
    + destruct Hp as [Hp|(d & Hp)]; rewrite Hp in H; simpl in H;
        injection H as <-; simpl;
        rewrite Nat.eqb_refl; simpl; rewrite ?Nat.eqb_refl; reflexivity.
Qed.

(** X9: insertions recorded on the two sides of a boundary are never
    merged: after [record_insert], [undo-boundary], a further
    [record_insert], even at the position where the first one ended,
    pushes a record of its own and leaves the boundary and the first
    record beneath it. *)
Theorem insertions_do_not_merge_across_a_boundary :
  forall (st st1 : state) (beg len beg' len' : Z),
    EQ_Qt (BVAR_undo_list st (current_buffer st)) = false ->
    pending_boundary_ok st ->
    Fundo_boundary (record_insert beg len st) = Ok st1 ->
    exists tail,
      BVAR_undo_list (record_insert beg' len' st1) (current_buffer st)
      = LCons (LCons (make_number beg') (make_number (beg' + len'))) tail
      /\ extends
           (LCons Qnil
              (BVAR_undo_list (record_insert beg len st) (current_buffer st)))
           tail.
Proof.
  intros st st1 beg len beg' len' He Hp H.
  destruct (record_insert_result beg len st He) as (a & rest & El & _).
  destruct (frame_record_insert beg len st) as (Fc & _).
  destruct (Fundo_boundary_pushes (record_insert beg len st)
              (LCons a (make_number (beg + len))) rest) as (st' & H' & L' & C' & _);
    [rewrite Fc; exact El|reflexivity| |].
  { unfold pending_boundary_ok. rewrite pending_record_insert by exact He.
    destruct (reserved_ok st Hp) as (d & Hd).
    destruct (undo_inhibit_record_point st); [exact Hp|right; eauto]. }
  rewrite H in H'. injection H' as <-. rewrite Fc in *.
  rewrite <- El in L'.
  pose proof (record_insert_pushes beg' len' st1) as P.
  pose proof (record_point_head beg' st1) as Hd.
  destruct (record_point_lists beg' st1) as (Ex & _).
  rewrite C' in P, Hd, Ex. rewrite L' in P, Hd, Ex.
  exists (BVAR_undo_list (record_point beg' st1) (current_buffer st)).
  split; [|exact Ex].
  apply P; [reflexivity|].
  destruct Hd as [E|E]; [rewrite E; reflexivity|exact E].
Qed.

Lemma record_point_at_boundary p st :
  undo_inhibit_record_point st = false ->
  save_modiff (bufs st (current_buffer st))
  < modiff (bufs st (current_buffer st)) ->
  NILP (XCAR (BVAR_undo_list st (current_buffer st))) = true ->
  BVAR_undo_list (record_point p st) (current_buffer st)
  = if same_buffer (current_buffer st) (last_boundary_buffer st)
       && negb (last_boundary_position st =? p)
    then LCons (make_number (last_boundary_position st))
               (BVAR_undo_list st (current_buffer st))
    else BVAR_undo_list st (current_buffer st).
Proof.
  intros Hi Hm Hn. unfold record_point. rewrite Hi.
  set (st1 := announce_undoable_change (reserve_pending_boundary st)).
  assert (F1 : frame st st1).
  { eapply frame_trans; [apply frame_reserve|apply frame_announce]. }
  assert (B1 : forall q, BVAR_undo_list st1 q = BVAR_undo_list st q).
  { intros q. subst st1. now rewrite BVAR_announce, BVAR_reserve. }
  cbv zeta.
  destruct F1 as (Fc & _ & Fbb & Fp & Fb).
  destruct (Fb (current_buffer st)) as (_ & _ & Em & Es & _).
  rewrite !Fc, !B1, Em, Es, Hn, orb_true_r.
  destruct (Z.leb_spec (modiff (bufs st (current_buffer st)))
                       (save_modiff (bufs st (current_buffer st)))); [lia|].
  rewrite Fbb, Fp. cbn [andb].
  destruct (_ && _); [rewrite BVAR_bset_same|]; now rewrite B1.
Qed.

(** X10: point recording after a boundary.  In a modified buffer with
    undo enabled and point recording not inhibited, after
    [record_insert], [undo-boundary] with point at P, the next
    [record_insert] at a position other than P pushes the position P
    between the boundary and its own record; at P itself it pushes its
    record directly on the boundary. *)
Theorem point_is_recorded_after_a_boundary :
  forall (st st1 : state) (beg len beg' len' : Z),
    EQ_Qt (BVAR_undo_list st (current_buffer st)) = false ->
    pending_boundary_ok st ->
    undo_inhibit_record_point st = false ->
    save_modiff (bufs st (current_buffer st))
    < modiff (bufs st (current_buffer st)) ->
    Fundo_boundary (record_insert beg len st) = Ok st1 ->
    BVAR_undo_list (record_insert beg' len' st1) (current_buffer st)
    = LCons (LCons (make_number beg') (make_number (beg' + len')))
        (if pt (bufs st (current_buffer st)) =? beg'
         then LCons Qnil
                (BVAR_undo_list (record_insert beg len st) (current_buffer st))
         else LCons (make_number (pt (bufs st (current_buffer st))))
                (LCons Qnil
                   (BVAR_undo_list (record_insert beg len st)
                                   (current_buffer st)))).
Proof.
  intros st st1 beg len beg' len' He Hp Hi Hm H.
  destruct (record_insert_result beg len st He) as (a & rest & El & _).
  destruct (frame_record_insert beg len st) as (Fc & Fi & _ & _ & Fb).
  destruct (Fb (current_buffer st)) as (_ & Ept & Em & Es & _).
  destruct (Fundo_boundary_pushes (record_insert beg len st)
              (LCons a (make_number (beg + len))) rest)
    as (st' & H' & L' & C' & _ & Lp & Lb & I' & M');
    [rewrite Fc; exact El|reflexivity| |].
  { unfold pending_boundary_ok. rewrite pending_record_insert by exact He.
    destruct (reserved_ok st Hp) as (d & Hd).
    destruct (undo_inhibit_record_point st); [exact Hp|right; eauto]. }
  rewrite H in H'. injection H' as <-. rewrite Fc in *.
  rewrite <- El in L'.
  destruct (M' (current_buffer st)) as (Em' & Es').
  pose proof (record_point_at_boundary beg' st1) as P.
  rewrite C', I', Fi, Em', Es', Em, Es, L', Lb, Lp, Ept in P.
  specialize (P Hi Hm eq_refl).
  simpl same_buffer in P. rewrite Nat.eqb_refl in P. cbn [andb] in P.
  pose proof (record_insert_pushes beg' len' st1) as R.
  rewrite C', L', P in R. rewrite R; [|reflexivity|].
  - destruct (_ =? _); reflexivity.
  - destruct (_ =? _); reflexivity.
Qed.

(** X11: the reserved boundary cell stays well formed: if it is absent or
    a cell whose car is nil, it is so again after every recording entry
    point, after [undo-boundary] and after [truncate_undo_list]; so the
    element that [undo-boundary] links in is always a boundary. *)
Theorem pending_boundary_stays_well_formed :
  forall (make_buffer_string : state -> Z -> Z -> Lisp_Object) (st : state),
    pending_boundary_ok st ->
    (forall beg len, pending_boundary_ok (record_insert beg len st))
    /\ (forall beg str rm, pending_boundary_ok (record_delete beg str rm st))
    /\ (forall beg len,
          pending_boundary_ok (record_change make_buffer_string beg len st))
    /\ (forall beg len prop value buf,
          pending_boundary_ok (record_property_change beg len prop value buf st))
    /\ (forall st', Fundo_boundary st = Ok st' -> pending_boundary_ok st')
    /\ (forall b, pending_boundary_ok (truncate_undo_list b st)).
Proof.
  intros mbs st Hp.
  assert (R : forall s, pending_boundary_ok s ->
                        forall s', pending_boundary s' = reserved s ->
                                   pending_boundary_ok s').
  { intros s Hs s' E. destruct (reserved_ok s Hs) as (d & Hd).
    right. exists d. congruence. }
  assert (I : forall s beg len, pending_boundary_ok s ->
                                pending_boundary_ok (record_insert beg len s)).
  { intros s beg len Hs.
    destruct (EQ_Qt (BVAR_undo_list s (current_buffer s))) eqn:He.
    - unfold record_insert. now rewrite He.
    - pose proof (pending_record_insert beg len s He) as E.
      destruct (undo_inhibit_record_point s);
        [unfold pending_boundary_ok; now rewrite E|now apply (R s)]. }
  assert (D : forall s beg str rm, pending_boundary_ok s ->
                                   pending_boundary_ok (record_delete beg str rm s)).
  { intros s beg str rm Hs.
    destruct (EQ_Qt (BVAR_undo_list s (current_buffer s))) eqn:He.
    - unfold record_delete. now rewrite He.
    - pose proof (pending_record_delete beg str rm s He) as E.
      destruct (negb rm && undo_inhibit_record_point s);
        [unfold pending_boundary_ok; now rewrite E|now apply (R s)]. }
  split; [intros; now apply I|]. split; [intros; now apply D|].
  split; [intros; unfold record_change; now apply I, D|].
  split; [|split].
  - intros beg len prop value buf. unfold record_property_change.
    destruct (EQ_Qt _); [exact Hp|]. cbv zeta.
    apply (R st Hp). simpl.
    destruct (_ <=? _); rewrite ?pending_record_first_change; simpl;
      now rewrite pending_announce, pending_reserve.
  - intros st' H. unfold Fundo_boundary in H.
    destruct (EQ_Qt _); [injection H as <-; exact Hp|].
    destruct (Fcar _) as [tem|]; [|discriminate].
    injection H as <-.
    destruct (negb (NILP tem)); [|exact Hp].
    destruct (negb (NILP (pending_boundary st))); [now left|exact Hp].
  - intros b. unfold truncate_undo_list.
    destruct (truncate_decision st b); exact Hp.
Qed.

(** X2: in a buffer with undo enabled, [record_insert] always leaves an
    insertion record at the head of the list, a pair of an integer and
    the fixnum of [beg + length]; beneath it lies either the former list
    with what point recording pushed, or the tail of the former list when
    the former head record was extended; and the lists of the other
    buffers are as they were. *)
Theorem record_insert_leaves_insertion_at_head :
  forall (st : state) (beg len : Z),
    EQ_Qt (BVAR_undo_list st (current_buffer st)) = false ->
    (exists a rest,
        BVAR_undo_list (record_insert beg len st) (current_buffer st)
        = LCons (LCons a (make_number (beg + len))) rest
        /\ INTEGERP a = true
        /\ (extends (BVAR_undo_list st (current_buffer st)) rest
            \/ exists e, BVAR_undo_list st (current_buffer st)
                         = LCons (LCons a e) rest))
    /\ forall b, b <> current_buffer st ->
         BVAR_undo_list (record_insert beg len st) b = BVAR_undo_list st b.
Proof.
  intros st beg len He. split.
  - now apply record_insert_result.
  - intros b Hb. now apply record_insert_other.
Qed.

(** X3: in a buffer with undo enabled, [record_delete] leaves the
    deletion record at the head, the text paired with minus [beg] when
    point is at the end of the text and with [beg] otherwise; directly
    beneath it, when markers are to be recorded, the adjustment records of
    the markers of the deleted range and nothing else; beneath those the
    list as point recording left it.  The lists of the other buffers are
    as they were. *)
Theorem record_delete_pushes_adjustments_then_deletion :
  forall (st : state) (beg : Z) (str : Lisp_Object) (rm : bool),
    EQ_Qt (BVAR_undo_list st (current_buffer st)) = false ->
    BVAR_undo_list (record_delete beg str rm st) (current_buffer st)
    = LCons
        (LCons str
           (make_number
              (if pt (bufs st (current_buffer st)) =? beg + SCHARS str
               then - beg else beg)))
        (push_all
           (if rm
            then map (adjustment_record beg (beg + SCHARS str))
                     (filter (needs_adjustment beg (beg + SCHARS str))
                             (markers (bufs st (current_buffer st))))
            else [])
           (BVAR_undo_list
              (record_point
                 (if pt (bufs st (current_buffer st)) =? beg + SCHARS str
                  then pt (bufs st (current_buffer st)) else beg) st)
              (current_buffer st)))
    /\ extends (BVAR_undo_list st (current_buffer st))
               (BVAR_undo_list (record_delete beg str rm st) (current_buffer st))
    /\ forall b, b <> current_buffer st ->
         BVAR_undo_list (record_delete beg str rm st) b = BVAR_undo_list st b.
Proof.
  intros st beg str rm He.
  pose proof (record_delete_result beg str rm st He) as E. cbv zeta in E.
  split; [exact E|]. split.
  - rewrite E. apply extends_push.
    eapply extends_trans; [apply record_point_lists|apply extends_push_all].
  - intros b Hb. now apply record_delete_other.
Qed.

(** X4: [record_change] in a buffer with undo enabled that is modified
    since its last save (or with point recording inhibited), when
    [make_buffer_string] returns a string: the list gains the deletion
    record of the old text and, on top of it, the insertion record from
    [beg] to [beg + length]; the two are never merged with each other or
    with older records, and no marker adjustment comes between them. *)
Theorem record_change_pushes_deletion_then_insertion :
  forall (make_buffer_string : state -> Z -> Z -> Lisp_Object)
         (st : state) (beg len : Z),
    EQ_Qt (BVAR_undo_list st (current_buffer st)) = false ->
    undo_inhibit_record_point st = true
    \/ save_modiff (bufs st (current_buffer st))
       < modiff (bufs st (current_buffer st)) ->
    STRINGP (make_buffer_string st beg (beg + len)) = true ->
    exists position tail,
      BVAR_undo_list (record_change make_buffer_string beg len st)
                     (current_buffer st)
      = LCons (LCons (make_number beg) (make_number (beg + len)))
          (LCons (LCons (make_buffer_string st beg (beg + len)) position) tail)
      /\ (tail = BVAR_undo_list st (current_buffer st)
          \/ tail = LCons (make_number (last_boundary_position st))
                          (BVAR_undo_list st (current_buffer st))).
Proof.
  intros mbs st beg len He Hq Hs. unfold record_change.
  set (str := mbs st beg (beg + len)) in *.
  pose proof (record_delete_result beg str false st He) as E. cbv zeta in E.
  simpl push_all in E. unfold push_all in E. simpl in E.
  set (st1 := record_delete beg str false st) in *.
  destruct (frame_record_delete beg str false st) as (Fc & Fi & _ & _ & Fb).
  destruct (Fb (current_buffer st)) as (_ & _ & Em & Es & _).
  fold st1 in Fc, Fi, Em, Es.
  assert (Q : forall b, BVAR_undo_list (record_point beg st1) b
                        = BVAR_undo_list st1 b).
  { apply record_point_quiet. rewrite Fc, Fi, Em, Es, E.
    destruct Hq; [left|right]; auto. }
  eexists _, _. split.
  - rewrite <- Fc. rewrite record_insert_pushes.
    + rewrite Q, Fc, E. reflexivity.
    + rewrite Fc, E. reflexivity.
    + rewrite Q, Fc, E. destruct str; try discriminate. reflexivity.
  - apply record_point_hint. exact Hq.
Qed.

Lemma BVAR_set_current_buffer st b q :
  BVAR_undo_list (set_current_buffer st b) q = BVAR_undo_list st q.
Proof. reflexivity. Qed.

(** X5: [record_property_change] for a target buffer with undo enabled
    pushes the record (nil PROP VALUE BEG . END) on the list of the target
    buffer, on top of a first-change record when that buffer is unmodified
    since its save; it leaves the current buffer current and the lists of
    all other buffers as they were. *)
Theorem record_property_change_pushes_on_target :
  forall (st : state) (beg len : Z) (prop value : Lisp_Object)
         (buf : buffer_ptr),
    EQ_Qt (BVAR_undo_list st buf) = false ->
    let st' := record_property_change beg len prop value buf st in
    current_buffer st' = current_buffer st
    /\ (exists tail,
           BVAR_undo_list st' buf
           = LCons (LCons Qnil
                      (LCons prop
                         (LCons value
                            (LCons (make_number beg)
                                   (make_number (beg + len))))))
                   tail
           /\ (tail = BVAR_undo_list st buf
               \/ (modiff (bufs st buf) <= save_modiff (bufs st buf)
                   /\ exists time,
                        tail = LCons (LCons Qt time) (BVAR_undo_list st buf))))
    /\ forall b, b <> buf -> BVAR_undo_list st' b = BVAR_undo_list st b.
Proof.
  intros st beg len prop value buf He st'. subst st'.
  unfold record_property_change. rewrite He. cbv zeta.
  set (st1 := announce_undoable_change (reserve_pending_boundary st)).
  assert (B1 : forall q, BVAR_undo_list st1 q = BVAR_undo_list st q).
  { intros q. subst st1. now rewrite BVAR_announce, BVAR_reserve. }
  assert (F1 : frame st st1).
  { eapply frame_trans; [apply frame_reserve|apply frame_announce]. }
  destruct F1 as (_ & _ & _ & _ & Fb).
  destruct (Fb buf) as (_ & _ & Em & Es & _).
  set (st2 := set_current_buffer st1 buf).
  change (current_buffer st2) with buf.
  change (bufs st2 buf) with (bufs st1 buf).
  rewrite Em, Es.
  split; [reflexivity|].
  destruct (Z.leb_spec (modiff (bufs st buf)) (save_modiff (bufs st buf))).
  - assert (C : current_buffer (record_first_change st2) = buf)
      by (apply (frame_record_first_change st2)).
    rewrite C. split.
    + eexists. rewrite BVAR_set_current_buffer, BVAR_bset_same.
      split; [reflexivity|]. right. split; [assumption|].
      exists (Fvisited_file_modtime st2).
      pose proof (BVAR_record_first_change st2) as R.
      change (current_buffer st2) with buf in R.
      rewrite R; [|change (BVAR_undo_list st2 buf) with (BVAR_undo_list st1 buf);
                   now rewrite B1].
      change (BVAR_undo_list st2 buf) with (BVAR_undo_list st1 buf).
      now rewrite B1.
    + intros b Hb. rewrite BVAR_set_current_buffer, BVAR_bset_other by exact Hb.
      rewrite other_record_first_change by exact Hb.
      change (BVAR_undo_list st2 b) with (BVAR_undo_list st1 b). apply B1.
  - split.
    + eexists. rewrite BVAR_set_current_buffer, BVAR_bset_same.
      split; [reflexivity|]. left.
      change (BVAR_undo_list st2 buf) with (BVAR_undo_list st1 buf). apply B1.
    + intros b Hb. rewrite BVAR_set_current_buffer, BVAR_bset_other by exact Hb.
      change (BVAR_undo_list st2 b) with (BVAR_undo_list st1 b). apply B1.
Qed.

(** X1: while the list of the current buffer is t, undo being disabled,
    every recording entry point and [undo-boundary] return the state
    exactly as they found it, and [undo-size] answers nil. *)
Theorem disabled_buffer_is_left_alone :
  forall (make_buffer_string : state -> Z -> Z -> Lisp_Object) (st : state),
    EQ_Qt (BVAR_undo_list st (current_buffer st)) = true ->
    (forall beg len, record_insert beg len st = st)
    /\ (forall beg str rm, record_delete beg str rm st = st)
    /\ (forall beg len, record_change make_buffer_string beg len st = st)
    /\ record_first_change st = st
    /\ (forall beg len prop value,
          record_property_change beg len prop value (current_buffer st) st = st)
    /\ Fundo_boundary st = Ok st
    /\ (forall n, Fundo_size n st = Ok Qnil).
Proof.
  intros mbs st He.
  assert (I : forall beg len, record_insert beg len st = st)
    by (intros; unfold record_insert; now rewrite He).
  assert (D : forall beg str rm, record_delete beg str rm st = st)
    by (intros; unfold record_delete; now rewrite He).
  split; [exact I|]. split; [exact D|].
  split; [intros; unfold record_change; now rewrite D, I|].
  split; [unfold record_first_change; now rewrite He|].
  split; [intros; unfold record_property_change; now rewrite He|].
  split; [unfold Fundo_boundary; now rewrite He|].
  intros n. unfold Fundo_size, Fundo_size_from. now rewrite He.
Qed.

End JournalProps.

(** ** Sizes and truncation: further properties *)

Section SizeProps.
Context {ext : Externals}.

Lemma elements_size_app xs ys :
  elements_size (xs ++ ys) = elements_size xs + elements_size ys.
Proof.
  induction xs as [|x xs IH]; simpl; [reflexivity|]. rewrite IH. lia.
Qed.

Lemma element_size_nonneg elt :
  0 <= sizeof_Lisp_Cons -> 0 <= string_size elt -> 0 <= element_size elt.
Proof.
  intros Hc Hs. unfold element_size. destruct (CONSP elt); lia.
Qed.

Lemma elements_size_nonneg l :
  0 <= sizeof_Lisp_Cons -> sized_records l ->
  0 <= elements_size (lisp_elements l).
Proof.
  intros Hc. unfold sized_records.
  induction (lisp_elements l) as [|e es IH]; intros Hs; simpl; [lia|].
  inversion Hs; subst.
  pose proof (element_size_nonneg e Hc). specialize (IH H2). lia.
Qed.

(** What the two scanning loops have passed when they stop. *)
Lemma skip_to_boundary_passed next0 : forall prev0 pos0 size0,
  let s := skip_to_boundary next0 prev0 pos0 size0 in
  exists passed,
    lisp_elements next0 = passed ++ lisp_elements (next s)
    /\ size_so_far s = size0 + elements_size passed
    /\ pos s = (pos0 + List.length passed)%nat.
Proof.
  induction next0 as [| | | | | |elt _ rest IH]; intros prev0 pos0 size0; simpl;
    try (exists []; simpl; repeat split; lia).
  destruct (NILP elt); simpl.
  - exists []. simpl. repeat split; lia.
  - destruct (IH (Some pos0) (S pos0) (size0 + element_size elt))
      as (passed & E & Sz & Ps).
    exists (elt :: passed). simpl. rewrite <- E.
    repeat split; [rewrite Sz|rewrite Ps]; lia.
Qed.

Lemma keep_additional_passed limit strong next0 : forall prev0 pos0 size0 lb0,
  let s := keep_additional limit strong next0 prev0 pos0 size0 lb0 in
  exists passed,
    lisp_elements next0 = passed ++ lisp_elements (next s)
    /\ size_so_far s = size0 + elements_size passed
    /\ pos s = (pos0 + List.length passed)%nat.
Proof.
  induction next0 as [| | | | | |elt _ rest IH]; intros prev0 pos0 size0 lb0;
    simpl; try (exists []; simpl; repeat split; lia).
  assert (Go : forall lb,
             exists passed,
               elt :: lisp_elements rest
               = passed ++ lisp_elements
                   (next (keep_additional limit strong rest (Some pos0) (S pos0)
                            (size0 + element_size elt) lb))
               /\ size_so_far (keep_additional limit strong rest (Some pos0)
                                 (S pos0) (size0 + element_size elt) lb)
                  = size0 + elements_size passed
               /\ pos (keep_additional limit strong rest (Some pos0) (S pos0)
                         (size0 + element_size elt) lb)
                  = (pos0 + List.length passed)%nat).
  { intros lb.
    destruct (IH (Some pos0) (S pos0) (size0 + element_size elt) lb)
      as (passed & E & Sz & Ps).
    exists (elt :: passed). simpl. rewrite <- E.
    repeat split; [rewrite Sz|rewrite Ps]; lia. }
  destruct (NILP elt); [|apply Go].
  destruct (size0 >? strong); [exists []; simpl; repeat split; lia|].
  destruct (size0 >? limit); [exists []; simpl; repeat split; lia|].
  apply Go.
Qed.

Lemma scan_first_command_passed l :
  let s := scan_first_command l in
  exists passed,
    lisp_elements l = passed ++ lisp_elements (next s)
    /\ size_so_far s = elements_size passed
    /\ pos s = List.length passed.
Proof.
  unfold scan_first_command, skip_leading_boundary.
  destruct l as [| | | | | |elt rest];
    try (exists []; simpl; repeat split; reflexivity).
  destruct (NILP elt) eqn:En; cbn [next prev pos size_so_far].
  - destruct (skip_to_boundary_passed rest (Some O) 1%nat (0 + sizeof_Lisp_Cons))
      as (passed & E & Sz & Ps).
    exists (elt :: passed).
    split; [cbn [lisp_elements app]; now rewrite <- E|].
    split; [|rewrite Ps; reflexivity].
    change (elements_size (elt :: passed))
      with (element_size elt + elements_size passed).
    rewrite Sz. unfold element_size. destruct elt; try discriminate. simpl. lia.
  - destruct (skip_to_boundary_passed (LCons elt rest) None O 0)
      as (passed & E & Sz & Ps).
    exists passed. split; [exact E|]. split; [rewrite Sz; lia|exact Ps].
Qed.

Lemma scan_additional_passed limit strong l :
  let f := scan_additional limit strong (scan_first_command l) in
  exists passed,
    lisp_elements l = passed ++ lisp_elements (next f)
    /\ size_so_far f = elements_size passed
    /\ pos f = List.length passed.
Proof.
  destruct (scan_first_command_passed l) as (p1 & E1 & S1 & P1).
  cbv zeta in *. unfold scan_additional, additional_entry.
  cbn [next prev pos size_so_far last_boundary].
  set (s := scan_first_command l) in *.
  destruct (keep_additional_passed limit strong (next s) (prev s) (pos s)
              (size_so_far s) (if CONSP (next s) then prev s else None))
    as (p2 & E2 & S2 & P2).
  exists (p1 ++ p2). rewrite <- app_assoc, <- E2, elements_size_app, length_app.
  split; [exact E1|]. split; [rewrite S2, S1; reflexivity|].
  rewrite P2, P1. reflexivity.
Qed.

(** X14: the size that [truncate_undo_list] compares with the limits is
    at every stop the sum, over the cells it has passed, of the space of
    each element with its chain link; when it leaves the list unchanged
    because the scan reached the end, that is the size of the whole
    list. *)
Theorem truncate_counts_the_cells_it_passed :
  forall (limit strong : Z) (l : Lisp_Object),
    size_so_far (scan_first_command l)
    = elements_size (firstn (pos (scan_first_command l)) (lisp_elements l))
    /\ size_so_far (scan_additional limit strong (scan_first_command l))
       = elements_size
           (firstn (pos (scan_additional limit strong (scan_first_command l)))
                   (lisp_elements l))
    /\ (NILP (next (scan_additional limit strong (scan_first_command l)))
        = true ->
        size_so_far (scan_additional limit strong (scan_first_command l))
        = elements_size (lisp_elements l)).
Proof.
  intros limit strong l.
  destruct (scan_first_command_passed l) as (p1 & E1 & S1 & P1).
  destruct (scan_additional_passed limit strong l) as (p2 & E2 & S2 & P2).
  cbv zeta in *.
  split; [|split].
  - rewrite E1 at 1. rewrite P1, firstn_app, Nat.sub_diag, firstn_all.
    simpl. rewrite app_nil_r. exact S1.
  - rewrite E2 at 1. rewrite P2, firstn_app, Nat.sub_diag, firstn_all.
    simpl. rewrite app_nil_r. exact S2.
  - intros Hn. rewrite E2 at 1.
    destruct (next (scan_additional limit strong (scan_first_command l)));
      try discriminate.
    simpl. rewrite app_nil_r. exact S2.
Qed.

(** *** [undo-size] against the truncation scan *)

(** X12: on a list without text property records, the size [undo-size]
    counts, for any count argument, is the size the truncation scan counts
    for the whole list less one cons cell for every element that is a
    cons: the two accountings differ by exactly the cells of the records
    themselves. *)
Theorem undo_size_is_truncation_size_less_record_cells :
  forall (l : Lisp_Object) (size boundaries num : Z),
    no_property_record l ->
    undo_size_loop l size boundaries num
    = size + elements_size (lisp_elements l)
      - sizeof_Lisp_Cons * cons_records l.
Proof.
  intros l size boundaries num. revert size boundaries num.
  unfold no_property_record, cons_records.
  induction l as [| | | | | |elt _ rest IH]; intros size bsf num Hn;
    simpl; try lia.
  inversion Hn as [|x xs Hx Hxs]; subst.
  destruct (CONSP elt) eqn:Ec.
  - simpl in Hx. rewrite Hx.
    rewrite IH by exact Hxs. unfold element_size. rewrite Ec.
    cbn [List.length]. lia.
  - rewrite IH by exact Hxs. unfold element_size. rewrite Ec. lia.
Qed.

Lemma undo_size_loop_lower l : forall size bsf num,
  0 <= sizeof_Lisp_Cons -> sized_records l ->
  size <= undo_size_loop l size bsf num.
Proof.
  unfold sized_records.
  induction l as [| | | | | |elt _ rest IH]; intros size bsf num Hc Hs;
    simpl; try lia.
  inversion Hs as [|x xs Hx Hxs]; subst.
  destruct (CONSP elt).
  - destruct (NILP (XCAR elt)).
    + destruct (_ >=? _); [lia|].
      specialize (IH (size + sizeof_Lisp_Cons + string_size elt) (bsf + 1) num
                     Hc Hxs). lia.
    + specialize (IH (size + sizeof_Lisp_Cons + string_size elt) bsf num Hc Hxs).
      lia.
  - specialize (IH (size + sizeof_Lisp_Cons) bsf num Hc Hxs). lia.
Qed.

(** X13: the size [undo-size] counts does not decrease when its count
    argument grows, on any list whose cells and strings have sizes that
    are not negative. *)
Theorem undo_size_grows_with_count :
  forall (l : Lisp_Object) (size boundaries m n : Z),
    0 <= sizeof_Lisp_Cons ->
    sized_records l ->
    m <= n ->
    undo_size_loop l size boundaries m <= undo_size_loop l size boundaries n.
Proof.
  intros l size bsf m n Hc Hs Hmn. revert size bsf Hs.
  unfold sized_records.
  induction l as [| | | | | |elt _ rest IH]; intros size bsf Hs; simpl; try lia.
  inversion Hs as [|x xs Hx Hxs]; subst.
  destruct (CONSP elt); [|now apply IH].
  destruct (NILP (XCAR elt)); [|now apply IH].
  destruct (Z.geb_spec (bsf + 1) m), (Z.geb_spec (bsf + 1) n); try lia.
  - pose proof (undo_size_loop_lower rest
                  (size + sizeof_Lisp_Cons + string_size elt) (bsf + 1) n Hc Hxs).
    lia.
  - now apply IH.
Qed.

(** *** What truncation keeps *)

Lemma firstn_elements_all l :
  lisp_elements l = firstn (List.length (lisp_elements l)) (lisp_elements l).
Proof. now rewrite firstn_all. Qed.

Lemma truncated_prefix l t :
  (forall h, t <> Overflow_handled h) ->
  exists k, lisp_elements (truncated l t) = firstn k (lisp_elements l).
Proof.
  intros Hh. destruct t as [h| |i|]; simpl.
  - exfalso. exact (Hh h eq_refl).
  - eexists. apply firstn_elements_all.
  - exists (S i). apply lisp_elements_cut.
  - exists O. reflexivity.
Qed.

(** X15: when the overflow handler does not take over,
    [truncate_undo_list] only ever drops a tail: the elements of the list
    it leaves are the first so many elements of the list it found, in the
    same order; and it changes nothing in any other buffer. *)
Theorem truncate_drops_only_a_tail :
  forall (st : state) (b : buffer_ptr),
    (forall h, truncate_decision st b <> Overflow_handled h) ->
    (exists k,
        lisp_elements (BVAR_undo_list (truncate_undo_list b st) b)
        = firstn k (lisp_elements (BVAR_undo_list st b)))
    /\ current_buffer (truncate_undo_list b st) = current_buffer st
    /\ forall b', b' <> b ->
         bufs (truncate_undo_list b st) b' = bufs st b'.
Proof.
  intros st b Hh.
  assert (E : BVAR_undo_list (truncate_undo_list b st) b
              = truncated (BVAR_undo_list st b) (truncate_decision st b)).
  { unfold truncate_undo_list.
    destruct (truncate_decision st b); try apply BVAR_bset_same. reflexivity. }
  split; [rewrite E; now apply truncated_prefix|].
  unfold truncate_undo_list.
  destruct (truncate_decision st b); split; try reflexivity;
    intros b' Hb; unfold bset_undo_list; now apply bufs_update_other.
Qed.

Lemma keep_additional_small limit strong next0 :
  forall prev0 pos0 size0 lb0,
    0 <= sizeof_Lisp_Cons ->
    sized_records next0 ->
    proper_list next0 = true ->
    size0 + elements_size (lisp_elements next0) <= limit ->
    size0 + elements_size (lisp_elements next0) <= strong ->
    NILP (next (keep_additional limit strong next0 prev0 pos0 size0 lb0)) = true.
Proof.
  unfold sized_records.
  induction next0 as [| | | | | |elt _ rest IH];
    intros prev0 pos0 size0 lb0 Hc Hs Hp Hl Hg; simpl in *;
    try discriminate; try reflexivity.
  inversion Hs as [|x xs Hx Hxs]; subst.
  pose proof (element_size_nonneg elt Hc Hx) as He.
  pose proof (elements_size_nonneg rest Hc Hxs) as Hr.
  assert (Go : forall lb,
             NILP (next (keep_additional limit strong rest (Some pos0) (S pos0)
                           (size0 + element_size elt) lb)) = true).
  { intros lb. apply IH; auto; lia. }
  destruct (NILP elt); [|apply Go].
  destruct (Z.gtb_spec size0 strong); [lia|].
  destruct (Z.gtb_spec size0 limit); [lia|].
  apply Go.
Qed.

Lemma sized_records_app_r xs l :
  Forall (fun elt => 0 <= string_size elt) (xs ++ lisp_elements l) ->
  sized_records l.
Proof. unfold sized_records. intros H. now apply Forall_app in H. Qed.

(** X16: a list that ends in nil and whose whole size, as the scan counts
    it, exceeds neither [undo-limit] nor [undo-strong-limit] is never
    truncated: unless the overflow handler takes over,
    [truncate_undo_list] returns the state as it found it. *)
Theorem truncate_leaves_a_small_list_alone :
  forall (st : state) (b : buffer_ptr),
    0 <= sizeof_Lisp_Cons ->
    sized_records (BVAR_undo_list st b) ->
    proper_list (BVAR_undo_list st b) = true ->
    elements_size (lisp_elements (BVAR_undo_list st b)) <= undo_limit st ->
    elements_size (lisp_elements (BVAR_undo_list st b)) <= undo_strong_limit st ->
    (forall h, truncate_decision st b <> Overflow_handled h) ->
    truncate_undo_list b st = st.
Proof.
  intros st b Hc Hs Hp Hl Hg Hh.
  assert (F : finish (scan_additional (undo_limit st) (undo_strong_limit st)
                        (scan_first_command (BVAR_undo_list st b)))
              = Unchanged).
  { unfold finish, scan_additional, additional_entry.
    cbn [next prev pos size_so_far last_boundary].
    destruct (scan_first_command_passed (BVAR_undo_list st b))
      as (p1 & E1 & S1 & _).
    cbv zeta in E1, S1.
    assert (P : proper_list (next (scan_first_command (BVAR_undo_list st b)))
                = true).
    { unfold scan_first_command, skip_leading_boundary.
      destruct (BVAR_undo_list st b) as [| | | | | |elt rest];
        try discriminate; try reflexivity.
      destruct (NILP elt); apply skip_to_boundary_proper; exact Hp. }
    rewrite E1, elements_size_app, <- S1 in Hl, Hg.
    unfold sized_records in Hs. rewrite E1 in Hs.
    rewrite keep_additional_small; auto.
    now apply (sized_records_app_r p1). }
  unfold truncate_undo_list.
  destruct (truncate_decision st b) as [h| |i|] eqn:D; try reflexivity.
  - exfalso. exact (Hh h eq_refl).
  - unfold truncate_decision in D.
    destruct (outer_limit_handler _ _) as [hd|]; [destruct (hd _)|];
      congruence.
  - unfold truncate_decision in D.
    destruct (outer_limit_handler _ _) as [hd|]; [destruct (hd _)|];
      congruence.
Qed.

(** The candidate the scan ends with is the one it started with, or a
    cell reached with no more than the strong limit counted. *)
Lemma keep_additional_bound limit strong next0 :
  forall prev0 pos0 size0 lb0 i,
    linked prev0 pos0 ->
    last_boundary (keep_additional limit strong next0 prev0 pos0 size0 lb0)
    = Some i ->
    lb0 = Some i
    \/ ((pos0 <= S i)%nat
        /\ size0 + elements_size (firstn (S i - pos0) (lisp_elements next0))
           <= strong).
Proof.
  induction next0 as [| | | | | |elt _ rest IH];
    intros prev0 pos0 size0 lb0 i Hl H; simpl in H; try (now left).
  assert (Go : forall lb,
             last_boundary (keep_additional limit strong rest (Some pos0)
                              (S pos0) (size0 + element_size elt) lb) = Some i ->
             lb = Some i
             \/ ((pos0 <= S i)%nat
                 /\ size0 + elements_size
                              (firstn (S i - pos0) (elt :: lisp_elements rest))
                    <= strong)).
  { intros lb Hlb.
    destruct (IH (Some pos0) (S pos0) (size0 + element_size elt) lb i eq_refl Hlb)
      as [E|(Hp & Hs)]; [now left|right].
    split; [lia|].
    replace (S i - pos0)%nat with (S (S i - S pos0)) by lia.
    cbn [firstn]. change (elements_size (elt :: ?xs))
      with (element_size elt + elements_size xs). lia. }
  cbn [lisp_elements].
  destruct (NILP elt); [|apply Go; exact H].
  destruct (Z.gtb_spec size0 strong); [now left|].
  assert (Here : prev0 = Some i ->
                 (pos0 <= S i)%nat
                 /\ size0 + elements_size
                              (firstn (S i - pos0) (elt :: lisp_elements rest))
                    <= strong).
  { intros ->. simpl in Hl. subst pos0. split; [lia|].
    rewrite Nat.sub_diag. simpl. lia. }
  destruct (size0 >? limit).
  - simpl in H. right. now apply Here.
  - destruct (Go prev0 H) as [E|R]; [right; now apply Here|now right].
Qed.

(** X17: when [truncate_undo_list] cuts the list, what it keeps is either
    the leading boundary and the most recent command alone, or a list
    whose size, as the scan counts it, is no more than
    [undo-strong-limit]. *)
Theorem truncate_keeps_within_the_strong_limit :
  forall (st : state) (b : buffer_ptr) (i : nat),
    truncate_decision st b = Cut_after i ->
    lisp_elements (BVAR_undo_list (truncate_undo_list b st) b)
    = firstn (S i) (lisp_elements (BVAR_undo_list st b))
    /\ (S i = (leading_boundary (BVAR_undo_list st b)
               + List.length (most_recent_command (BVAR_undo_list st b)))%nat
        \/ elements_size
             (lisp_elements (BVAR_undo_list (truncate_undo_list b st) b))
           <= undo_strong_limit st).
Proof.
  intros st b i D.
  assert (E : lisp_elements (BVAR_undo_list (truncate_undo_list b st) b)
              = firstn (S i) (lisp_elements (BVAR_undo_list st b))).
  { unfold truncate_undo_list. rewrite D, BVAR_bset_same. simpl.
    apply lisp_elements_cut. }
  split; [exact E|]. rewrite E.
  assert (F : finish (scan_additional (undo_limit st) (undo_strong_limit st)
                        (scan_first_command (BVAR_undo_list st b)))
              = Cut_after i).
  { unfold truncate_decision in D.
    destruct (outer_limit_handler _ _) as [h|]; [|exact D].
    destruct (h _); [discriminate|exact D]. }
  set (l := BVAR_undo_list st b) in *.
  destruct (scan_first_command_pos l) as (Lk & Ps).
  destruct (scan_first_command_passed l) as (p1 & E1 & S1 & P1).
  cbv zeta in Lk, Ps, E1, S1, P1.
  unfold finish, scan_additional, additional_entry in F.
  cbn [next prev pos size_so_far last_boundary] in F.
  set (s := scan_first_command l) in *.
  destruct (NILP (next _)); [discriminate|].
  destruct (last_boundary _) as [j|] eqn:Lb; [|discriminate].
  injection F as ->.
  destruct (keep_additional_bound _ _ _ _ _ _ _ _ Lk Lb) as [E0|(Hp & Hs)].
  - left. destruct (CONSP (next s)); [|discriminate].
    rewrite E0 in Lk. simpl in Lk. congruence.
  - right. rewrite E1.
    replace (S i) with (List.length p1 + (S i - pos s))%nat by lia.
    rewrite firstn_app_2, elements_size_app. lia.
Qed.

(** *** Truncating twice *)

Lemma XSETCDR_at_take i : forall l, XSETCDR_at i l Qnil = take_cells (S i) l.
Proof.
  induction i as [|i IH]; intros l; destruct l as [| | | | | |a d];
    try reflexivity.
  cbn [XSETCDR_at take_cells]. rewrite IH. reflexivity.
Qed.

Lemma keep_additional_passes limit strong next0 :
  forall prev0 pos0 size0 lb0 i,
    linked prev0 pos0 ->
    last_boundary (keep_additional limit strong next0 prev0 pos0 size0 lb0)
    = Some i ->
    lb0 = Some i
    \/ ((pos0 <= S i)%nat
        /\ passes limit strong (S i - pos0) next0 size0 = true).
Proof.
  induction next0 as [| | | | | |elt _ rest IH];
    intros prev0 pos0 size0 lb0 i Hl H; simpl in H; try (now left).
  assert (Here : prev0 = Some i ->
                 (pos0 <= S i)%nat
                 /\ passes limit strong (S i - pos0) (LCons elt rest) size0
                    = true).
  { intros ->. simpl in Hl. subst pos0. split; [lia|].
    rewrite Nat.sub_diag. reflexivity. }
  destruct (NILP elt) eqn:En.
  - destruct (Z.gtb_spec size0 strong); [now left|].
    destruct (Z.gtb_spec size0 limit).
    + simpl in H. right. now apply Here.
    + destruct (IH (Some pos0) (S pos0) (size0 + element_size elt) prev0 i
                   eq_refl H) as [E|(Hp & Hs)]; [right; now apply Here|right].
      split; [lia|].
      replace (S i - pos0)%nat with (S (S i - S pos0)) by lia.
      cbn [passes]. rewrite En, Hs.
      destruct (Z.leb_spec size0 strong), (Z.leb_spec size0 limit);
        try lia; reflexivity.
  - destruct (IH (Some pos0) (S pos0) (size0 + element_size elt) lb0 i
                 eq_refl H) as [E|(Hp & Hs)]; [now left|right].
    split; [lia|].
    replace (S i - pos0)%nat with (S (S i - S pos0)) by lia.
    cbn [passes]. rewrite En, Hs. reflexivity.
Qed.

Lemma keep_additional_on_passed limit strong k : forall next0 prev0 pos0 size0 lb0,
  passes limit strong k next0 size0 = true ->
  NILP (next (keep_additional limit strong (take_cells k next0) prev0 pos0
                              size0 lb0)) = true.
Proof.
  induction k as [|k IH]; intros next0 prev0 pos0 size0 lb0 H; [reflexivity|].
  destruct next0 as [| | | | | |elt rest]; try discriminate.
  cbn [passes] in H. apply andb_true_iff in H. destruct H as (Hc & Hr).
  cbn [take_cells keep_additional].
  destruct (NILP elt).
  - apply andb_true_iff in Hc. destruct Hc as (H1 & H2).
    apply Z.leb_le in H1, H2.
    destruct (Z.gtb_spec size0 strong); [lia|].
    destruct (Z.gtb_spec size0 limit); [lia|].
    now apply IH.
  - now apply IH.
Qed.

Lemma skip_to_boundary_take next0 : forall prev0 pos0 size0 k,
  (List.length (command_records next0) <= k)%nat ->
  let s := skip_to_boundary next0 prev0 pos0 size0 in
  skip_to_boundary (take_cells k next0) prev0 pos0 size0
  = mkScan (prev s)
           (take_cells (k - List.length (command_records next0)) (next s))
           (pos s) (size_so_far s) None.
Proof.
  induction next0 as [| | | | | |elt _ rest IH]; intros prev0 pos0 size0 k Hk;
    try (destruct k; reflexivity).
  cbn [command_records] in *.
  destruct (NILP elt) eqn:En.
  - destruct k; cbn [take_cells skip_to_boundary]; rewrite ?En; reflexivity.
  - cbn [List.length] in Hk. destruct k as [|k]; [lia|].
    cbn [take_cells skip_to_boundary]. rewrite En. cbn [negb].
    rewrite IH by lia. reflexivity.
Qed.

Lemma scan_first_command_take l k :
  (pos (scan_first_command l) <= k)%nat ->
  scan_first_command (take_cells k l)
  = mkScan (prev (scan_first_command l))
           (take_cells (k - pos (scan_first_command l))
                       (next (scan_first_command l)))
           (pos (scan_first_command l)) (size_so_far (scan_first_command l))
           None.
Proof.
  unfold scan_first_command, skip_leading_boundary.
  destruct l as [| | | | | |elt rest]; try (destruct k; reflexivity).
  destruct (NILP elt) eqn:En; cbn [next prev pos size_so_far]; intros Hk.
  - destruct (skip_to_boundary_pos rest (Some O) 1%nat (0 + sizeof_Lisp_Cons)
                eq_refl) as (_ & P).
    cbv zeta in P.
    destruct k as [|k]; [lia|].
    cbn [take_cells]. rewrite En. cbn [next prev pos size_so_far].
    rewrite skip_to_boundary_take by lia.
    replace (S k - pos (skip_to_boundary rest (Some O) 1
                          (0 + sizeof_Lisp_Cons)))%nat
      with (k - List.length (command_records rest))%nat by lia.
    reflexivity.
  - destruct (skip_to_boundary_pos (LCons elt rest) None O 0 eq_refl) as (_ & P).
    cbv zeta in P.
    assert (Hl : (1 <= List.length (command_records (LCons elt rest)))%nat)
      by (cbn [command_records]; rewrite En; simpl; lia).
    destruct k as [|k]; [lia|].
    assert (T : take_cells (S k) (LCons elt rest)
                = LCons elt (take_cells k rest)) by reflexivity.
    rewrite T, En. cbn [next prev pos size_so_far]. rewrite <- T.
    rewrite skip_to_boundary_take by lia.
    replace (S k - pos (skip_to_boundary (LCons elt rest) None 0 0))%nat
      with (S k - List.length (command_records (LCons elt rest)))%nat by lia.
    reflexivity.
Qed.

Lemma outer_limit_handler_never st size h :
  never_handles st -> outer_limit_handler st size = Some h ->
  forall x, h x = NotHandled.
Proof.
  unfold outer_limit_handler. intros Hn H.
  destruct (_ && _); [|discriminate]. now apply Hn.
Qed.

Lemma truncate_decision_never st b :
  never_handles st ->
  truncate_decision st b
  = finish (scan_additional (undo_limit st) (undo_strong_limit st)
              (scan_first_command (BVAR_undo_list st b))).
Proof.
  intros Hn. unfold truncate_decision.
  destruct (outer_limit_handler _ _) as [h|] eqn:Ho; [|reflexivity].
  now rewrite (outer_limit_handler_never st _ h Hn Ho).
Qed.

Lemma finish_scan_of_cut limit strong l i :
  finish (scan_additional limit strong (scan_first_command l)) = Cut_after i ->
  finish (scan_additional limit strong
            (scan_first_command (XSETCDR_at i l Qnil)))
  = Unchanged.
Proof.
  intros F. pose proof (finish_scan_keeps limit strong l i F) as Hk.
  rewrite XSETCDR_at_take, (scan_first_command_take l (S i) Hk).
  destruct (scan_first_command_pos l) as (Lk & _). cbv zeta in Lk.
  unfold finish, scan_additional, additional_entry in *.
  cbn [next prev pos size_so_far last_boundary] in *.
  set (s := scan_first_command l) in *.
  destruct (NILP (next (keep_additional limit strong (next s) _ _ _ _)));
    [discriminate|].
  destruct (last_boundary _) as [j|] eqn:Lb; [|discriminate].
  injection F as ->.
  destruct (keep_additional_passes _ _ _ _ _ _ _ _ Lk Lb) as [E0|(Hp & Hs)].
  - destruct (CONSP (next s)); [|discriminate].
    rewrite E0 in Lk. simpl in Lk. rewrite Lk, Nat.sub_diag. reflexivity.
  - now rewrite keep_additional_on_passed.
Qed.

(** X18: with an overflow handler that never takes over (or none), a
    second [truncate_undo_list] right after a first changes nothing: the
    first call has already brought the list to a state the scan accepts,
    whether it cut the list, cleared it or left it alone. *)
Theorem truncate_twice_is_once :
  forall (st : state) (b : buffer_ptr),
    never_handles st ->
    truncate_undo_list b (truncate_undo_list b st) = truncate_undo_list b st.
Proof.
  intros st b Hn.
  pose proof (truncate_decision_never st b Hn) as D.
  unfold truncate_undo_list at 2 3.
  destruct (truncate_decision st b) as [h| |i|] eqn:T.
  - unfold finish in D. destruct (NILP _); [discriminate|].
    destruct (last_boundary _); discriminate.
  - unfold truncate_undo_list. now rewrite T.
  - set (st1 := bset_undo_list st b _).
    assert (N1 : never_handles st1) by exact Hn.
    unfold truncate_undo_list.
    rewrite (truncate_decision_never st1 b N1).
    subst st1. rewrite BVAR_bset_same. cbn [truncated undo_limit undo_strong_limit bset_undo_list update_buffer with_bufs].
    now rewrite (finish_scan_of_cut _ _ _ _ (eq_sym D)).
  - set (st1 := bset_undo_list st b _).
    assert (N1 : never_handles st1) by exact Hn.
    unfold truncate_undo_list.
    rewrite (truncate_decision_never st1 b N1).
    subst st1. rewrite BVAR_bset_same. reflexivity.
Qed.

End SizeProps.

(** ** Further evaluations on the 64-bit build *)

(** X1, on a buffer whose list is t. *)
Lemma disabled_buffer_is_left_alone_witness :
  EQ_Qt (BVAR_undo_list (session Qt 80000 120000) O) = true
  /\ @record_insert lp64 10 3 (session Qt 80000 120000)
     = session Qt 80000 120000
  /\ Fundo_boundary (session Qt 80000 120000)
     = Ok (session Qt 80000 120000)
  /\ @Fundo_size lp64 (LInt 0) (session Qt 80000 120000) = Ok Qnil.
Proof.
  destruct (@disabled_buffer_is_left_alone lp64 sample_buffer_string
              (session Qt 80000 120000) eq_refl)
    as (I & _ & _ & _ & _ & B & S).
  split; [reflexivity|]. split; [apply I|]. split; [exact B|apply S].
Defined.

(** X2, recording an insertion at 3 on [two_commands]. *)
Lemma record_insert_leaves_insertion_at_head_witness :
  EQ_Qt (BVAR_undo_list (session two_commands 80000 120000) O) = false
  /\ exists a rest,
       BVAR_undo_list (@record_insert lp64 3 2 (session two_commands 80000 120000)) O
       = LCons (LCons a (@make_number lp64 (3 + 2))) rest
       /\ INTEGERP a = true.
Proof.
  split; [reflexivity|].
  destruct (@record_insert_leaves_insertion_at_head lp64
              (session two_commands 80000 120000) 3 2 eq_refl)
    as ((a & rest & E & I & _) & _).
  exists a, rest. split; [exact E|exact I].
Defined.

(** X3, deleting "abc" at 5 with point at 8 among [sample_markers]. *)
Lemma record_delete_pushes_adjustments_then_deletion_witness :
  EQ_Qt (BVAR_undo_list (marker_session Qnil sample_markers 8) O) = false
  /\ BVAR_undo_list
       (@record_delete lp64 5 abc true (marker_session Qnil sample_markers 8)) O
     = lisp_list [deletion abc (-5); LCons (LMarker 4) (LInt (-3));
                  LCons (LMarker 3) (LInt 1); LCons (LMarker 2) (LInt (-1))]
                 Qnil.
Proof.
  split; [reflexivity|].
  destruct (@record_delete_pushes_adjustments_then_deletion lp64
              (marker_session Qnil sample_markers 8) 5 abc true eq_refl)
    as (E & _).
  etransitivity; [exact E|reflexivity].
Defined.

(** X4, replacing three characters at 5 in a modified buffer. *)
Lemma record_change_pushes_deletion_then_insertion_witness :
  EQ_Qt (BVAR_undo_list (session two_commands 80000 120000) O) = false
  /\ save_modiff (bufs (session two_commands 80000 120000) O)
     < modiff (bufs (session two_commands 80000 120000) O)
  /\ STRINGP (sample_buffer_string (session two_commands 80000 120000) 5 (5 + 3))
     = true
  /\ exists position tail,
       BVAR_undo_list
         (@record_change lp64 sample_buffer_string 5 3
            (session two_commands 80000 120000)) O
       = LCons (LCons (@make_number lp64 5) (@make_number lp64 (5 + 3)))
           (LCons (LCons abc position) tail).
Proof.
  assert (M : save_modiff (bufs (session two_commands 80000 120000) O)
              < modiff (bufs (session two_commands 80000 120000) O))
    by (simpl; lia).
  split; [reflexivity|]. split; [exact M|]. split; [reflexivity|].
  destruct (@record_change_pushes_deletion_then_insertion lp64
              sample_buffer_string (session two_commands 80000 120000) 5 3
              eq_refl (or_intror M) eq_refl) as (p & t & E & _).
  exists p, t. exact E.
Defined.

(** X5, a property change in buffer 0 recorded while buffer 1 is current. *)
Lemma record_property_change_pushes_on_target_witness :
  EQ_Qt (BVAR_undo_list (indirect_session Qnil Qnil) O) = false
  /\ current_buffer
       (@record_property_change lp64 1 4 (LSymbol "face") (LSymbol "bold") O
          (indirect_session Qnil Qnil)) = 1%nat
  /\ BVAR_undo_list
       (@record_property_change lp64 1 4 (LSymbol "face") (LSymbol "bold") O
          (indirect_session Qnil Qnil)) 1%nat = Qnil.
Proof.
  split; [reflexivity|].
  destruct (@record_property_change_pushes_on_target lp64
              (indirect_session Qnil Qnil) 1 4 (LSymbol "face") (LSymbol "bold")
              O eq_refl) as (C & _ & Oth).
  split; [exact C|]. apply Oth. discriminate.
Defined.

(** X7, a boundary after an insertion at 10. *)
Lemma undo_boundary_after_recording_witness :
  EQ_Qt (BVAR_undo_list (session Qnil 80000 120000) O) = false
  /\ pending_boundary_ok (session Qnil 80000 120000)
  /\ exists st',
       Fundo_boundary (@record_insert lp64 10 3 (session Qnil 80000 120000))
       = Ok st'
       /\ pending_boundary st' = Qnil.
Proof.
  assert (P : pending_boundary_ok (session Qnil 80000 120000))
    by (left; reflexivity).
  split; [reflexivity|]. split; [exact P|].
  destruct (@undo_boundary_after_recording lp64 (session Qnil 80000 120000)
              10 3 abc false eq_refl P) as ((st' & E & _ & Q & _) & _).
  exists st'. split; [exact E|exact Q].
Defined.

(** X8, two boundaries after [two_commands]. *)
Lemma undo_boundary_twice_is_once_witness :
  pending_boundary_ok (session two_commands 80000 120000)
  /\ Fundo_boundary (session two_commands 80000 120000)
     = Ok (after_boundary (session two_commands 80000 120000))
  /\ Fundo_boundary (after_boundary (session two_commands 80000 120000))
     = Ok (after_boundary (session two_commands 80000 120000)).
Proof.
  assert (P : pending_boundary_ok (session two_commands 80000 120000))
    by (left; reflexivity).
  assert (H : Fundo_boundary (session two_commands 80000 120000)
              = Ok (after_boundary (session two_commands 80000 120000)))
    by reflexivity.
  split; [exact P|]. split; [exact H|].
  exact (undo_boundary_twice_is_once _ _ P H).
Defined.

(** X9, insertions at 10 and at 13 with a boundary between them. *)
Lemma insertions_do_not_merge_across_a_boundary_witness :
  EQ_Qt (BVAR_undo_list (session Qnil 80000 120000) O) = false
  /\ pending_boundary_ok (session Qnil 80000 120000)
  /\ Fundo_boundary (@record_insert lp64 10 3 (session Qnil 80000 120000))
     = Ok (after_boundary
             (@record_insert lp64 10 3 (session Qnil 80000 120000)))
  /\ exists tail,
       BVAR_undo_list
         (@record_insert lp64 13 2
            (after_boundary
               (@record_insert lp64 10 3 (session Qnil 80000 120000)))) O
       = LCons (LCons (@make_number lp64 13) (@make_number lp64 (13 + 2))) tail.
Proof.
  assert (P : pending_boundary_ok (session Qnil 80000 120000))
    by (left; reflexivity).
  assert (H : Fundo_boundary
                (@record_insert lp64 10 3 (session Qnil 80000 120000))
              = Ok (after_boundary
                      (@record_insert lp64 10 3 (session Qnil 80000 120000))))
    by reflexivity.
  split; [reflexivity|]. split; [exact P|]. split; [exact H|].
  destruct (@insertions_do_not_merge_across_a_boundary lp64
              (session Qnil 80000 120000) _ 10 3 13 2 eq_refl P H)
    as (tail & E & _).
  exists tail. exact E.
Defined.

(** X10, the same with point at 1 when the boundary is made: the
    position 1 lies between the boundary and the second record. *)
Lemma point_is_recorded_after_a_boundary_witness :
  EQ_Qt (BVAR_undo_list (session Qnil 80000 120000) O) = false
  /\ pending_boundary_ok (session Qnil 80000 120000)
  /\ undo_inhibit_record_point (session Qnil 80000 120000) = false
  /\ save_modiff (bufs (session Qnil 80000 120000) O)
     < modiff (bufs (session Qnil 80000 120000) O)
  /\ BVAR_undo_list
       (@record_insert lp64 13 2
          (after_boundary
             (@record_insert lp64 10 3 (session Qnil 80000 120000)))) O
     = lisp_list [insertion 13 15; LInt 1; Qnil; insertion 10 13] Qnil.
Proof.
  assert (P : pending_boundary_ok (session Qnil 80000 120000))
    by (left; reflexivity).
  assert (M : save_modiff (bufs (session Qnil 80000 120000) O)
              < modiff (bufs (session Qnil 80000 120000) O))
    by (simpl; lia).
  split; [reflexivity|]. split; [exact P|]. split; [reflexivity|].
  split; [exact M|].
  etransitivity;
    [exact (@point_is_recorded_after_a_boundary lp64
              (session Qnil 80000 120000)
              (after_boundary
                 (@record_insert lp64 10 3 (session Qnil 80000 120000)))
              10 3 13 2 eq_refl P eq_refl M eq_refl)
    |reflexivity].
Defined.

(** X11, from the state of [syms_of_undo]. *)
Lemma pending_boundary_stays_well_formed_witness :
  pending_boundary_ok (session Qnil 80000 120000)
  /\ pending_boundary_ok (@record_insert lp64 10 3 (session Qnil 80000 120000))
  /\ pending_boundary_ok (@truncate_undo_list lp64 O (session Qnil 80000 120000)).
Proof.
  assert (P : pending_boundary_ok (session Qnil 80000 120000))
    by (left; reflexivity).
  destruct (@pending_boundary_stays_well_formed lp64 sample_buffer_string
              (session Qnil 80000 120000) P) as (I & _ & _ & _ & _ & T).
  split; [exact P|]. split; [apply I|apply T].
Defined.

(** X12, on [three_commands]: 144 bytes for the truncation scan, three
    records of one cons each, 96 bytes for [undo-size]. *)
Lemma undo_size_is_truncation_size_less_record_cells_witness :
  no_property_record three_commands
  /\ @undo_size_loop lp64 three_commands 0 0 0 = 144 - 16 * 3.
Proof.
  assert (N : no_property_record three_commands)
    by (repeat (apply Forall_cons; [reflexivity|]); apply Forall_nil).
  split; [exact N|].
  etransitivity;
    [exact (@undo_size_is_truncation_size_less_record_cells lp64
              three_commands 0 0 0 N)
    |reflexivity].
Defined.

(** X13, counts 1 and 2 on a list of two property records. *)
Lemma undo_size_grows_with_count_witness :
  0 <= @sizeof_Lisp_Cons lp64
  /\ @sized_records lp64
       (lisp_list [property_change (LSymbol "face") Qnil 1 2;
                   property_change (LSymbol "face") Qnil 3 4] Qnil)
  /\ 1 <= 2
  /\ @undo_size_loop lp64
       (lisp_list [property_change (LSymbol "face") Qnil 1 2;
                   property_change (LSymbol "face") Qnil 3 4] Qnil) 0 0 1
     <= @undo_size_loop lp64
          (lisp_list [property_change (LSymbol "face") Qnil 1 2;
                      property_change (LSymbol "face") Qnil 3 4] Qnil) 0 0 2.
Proof.
  assert (C : 0 <= @sizeof_Lisp_Cons lp64) by (simpl; lia).
  assert (S : @sized_records lp64
                (lisp_list [property_change (LSymbol "face") Qnil 1 2;
                            property_change (LSymbol "face") Qnil 3 4] Qnil))
    by (repeat (apply Forall_cons; [vm_compute; discriminate|]);
        apply Forall_nil).
  assert (L : 1 <= 2) by lia.
  split; [exact C|]. split; [exact S|]. split; [exact L|].
  exact (@undo_size_grows_with_count lp64 _ 0 0 1 2 C S L).
Defined.

(** X15, on [three_commands] with limits 50 and 90. *)
Lemma truncate_drops_only_a_tail_witness :
  (forall h, @truncate_decision lp64 (session three_commands 50 90) O
             <> Overflow_handled h)
  /\ exists k,
       lisp_elements
         (BVAR_undo_list (@truncate_undo_list lp64 O (session three_commands 50 90)) O)
       = firstn k (lisp_elements three_commands).
Proof.
  assert (H : forall h, @truncate_decision lp64 (session three_commands 50 90) O
                        <> Overflow_handled h)
    by (intros h; vm_compute; discriminate).
  split; [exact H|].
  destruct (@truncate_drops_only_a_tail lp64 (session three_commands 50 90) O H)
    as (K & _).
  exact K.
Defined.

(** X16, on [three_commands], 144 bytes, under the default limits. *)
Lemma truncate_leaves_a_small_list_alone_witness :
  0 <= @sizeof_Lisp_Cons lp64
  /\ @sized_records lp64 three_commands
  /\ proper_list three_commands = true
  /\ @elements_size lp64 (lisp_elements three_commands) <= 80000
  /\ @elements_size lp64 (lisp_elements three_commands) <= 120000
  /\ @truncate_undo_list lp64 O (session three_commands 80000 120000)
     = session three_commands 80000 120000.
Proof.
  assert (C : 0 <= @sizeof_Lisp_Cons lp64) by (simpl; lia).
  assert (S : @sized_records lp64 three_commands)
    by (repeat (apply Forall_cons; [vm_compute; discriminate|]);
        apply Forall_nil).
  assert (L : @elements_size lp64 (lisp_elements three_commands) <= 80000)
    by (vm_compute; discriminate).
  assert (G : @elements_size lp64 (lisp_elements three_commands) <= 120000)
    by (vm_compute; discriminate).
  assert (H : forall h, @truncate_decision lp64
                          (session three_commands 80000 120000) O
                        <> Overflow_handled h)
    by (intros h; vm_compute; discriminate).
  split; [exact C|]. split; [exact S|]. split; [reflexivity|].
  split; [exact L|]. split; [exact G|].
  exact (@truncate_leaves_a_small_list_alone lp64
           (session three_commands 80000 120000) O C S eq_refl L G H).
Defined.

(** X17, on [three_commands] with limits 50 and 100: two commands are
    kept, 96 bytes. *)
Lemma truncate_keeps_within_the_strong_limit_witness :
  @truncate_decision lp64 (session three_commands 50 100) O = Cut_after 3
  /\ lisp_elements
       (BVAR_undo_list (@truncate_undo_list lp64 O (session three_commands 50 100)) O)
     = [Qnil; insertion 1 3; Qnil; insertion 4 6].
Proof.
  assert (D : @truncate_decision lp64 (session three_commands 50 100) O
              = Cut_after 3) by reflexivity.
  split; [exact D|].
  destruct (@truncate_keeps_within_the_strong_limit lp64
              (session three_commands 50 100) O 3 D) as (E & _).
  etransitivity; [exact E|reflexivity].
Defined.

(** X18, on [three_commands] with limits 50 and 90, no handler. *)
Lemma truncate_twice_is_once_witness :
  never_handles (session three_commands 50 90)
  /\ @truncate_undo_list lp64 O
       (@truncate_undo_list lp64 O (session three_commands 50 90))
     = @truncate_undo_list lp64 O (session three_commands 50 90).
Proof.
  assert (N : never_handles (session three_commands 50 90))
    by (intros h H; discriminate H).
  split; [exact N|].
  exact (@truncate_twice_is_once lp64 (session three_commands 50 90) O N).
Defined.
